(** * server.js: cache store, key derivation, sheet normalisation and loader

    A shallow embedding of the cache-and-normalise layer of [server.js]
    (the Express proxy in front of a Google spreadsheet) together with the
    properties its specification states about it.

    Modelling conventions.
    - A JavaScript string is the list of its UTF-16 code units ([list N]).
    - A plain object used as a record ([const obj = {}]) is the finite map
      of its own string-keyed properties; property enumeration order is
      not modelled.
    - [Date.now()] and the TTL are integers (milliseconds) in [Z].
    - The module-level [cache] ([new Map()]) is a field of the explicit
      world state threaded through every stateful function.
    - A call that spreads an array into its arguments throws
      [RangeError] beyond the engine's limit on the number of arguments,
      a parameter of the model ([argumentLimit]).
    - An [async] function is run to completion: every [await] is answered
      by the upstream oracle, which also says how much the clock moved
      while the call was pending. Interleaving of concurrent requests is
      not modelled. *)

From Stdlib Require Import ZArith NArith Lia List String Ascii.
From stdpp Require Import gmap strings list fin_maps pretty.

Local Open Scope N_scope.

(** ** JavaScript strings *)

Abbreviation jsstring := (list N) (only parsing).

(** An ASCII literal as a JavaScript string. *)
Definition js (s : string) : jsstring :=
  List.map N_of_ascii (list_ascii_of_string s).

(** ECMAScript [WhiteSpace] and [LineTerminator] code units, the ones
    [String.prototype.trim] strips. *)
Definition isWhiteSpace (u : N) : bool :=
  (u =? 0x9) || (u =? 0xA) || (u =? 0xB) || (u =? 0xC) || (u =? 0xD)
  || (u =? 0x20) || (u =? 0xA0) || (u =? 0x1680)
  || ((0x2000 <=? u) && (u <=? 0x200A))
  || (u =? 0x2028) || (u =? 0x2029) || (u =? 0x202F) || (u =? 0x205F)
  || (u =? 0x3000) || (u =? 0xFEFF).

Fixpoint trimStart (s : jsstring) : jsstring :=
  match s with
  | [] => []
  | u :: r => if isWhiteSpace u then trimStart r else s
  end.

Fixpoint trimEnd (s : jsstring) : jsstring :=
  match s with
  | [] => []
  | u :: r =>
      match trimEnd r with
      | [] => if isWhiteSpace u then [] else [u]
      | r' => u :: r'
      end
  end.

(** [s.trim()] *)
Definition trim (s : jsstring) : jsstring := trimEnd (trimStart s).

(** [parts.join(sep)] on an array of strings. *)
Fixpoint join (sep : jsstring) (parts : list jsstring) : jsstring :=
  match parts with
  | [] => []
  | [p] => p
  | p :: rest => p ++ sep ++ join sep rest
  end.

(** ** Records built by property assignment *)

Abbreviation jsobj := (gmap (list N) (list N)) (only parsing).

(** [obj[k] = v] on an object created by [{}], for a string [v].
    Every name creates or overwrites an own property, except
    ["__proto__"]: that name reaches the accessor inherited from
    [Object.prototype], whose setter ignores a value that is neither an
    object nor [null], so no own property appears. *)
Definition obj_set (k v : jsstring) (obj : jsobj) : jsobj :=
  if decide (k = js "__proto__") then obj else <[k := v]> obj.

(** [arr.forEach((x, i) => ...)] where the callback updates a captured
    variable of type [St]; [from] is the index of the first element. *)
Fixpoint forEach_from {A St : Type} (f : A -> nat -> St -> St)
    (from : nat) (arr : list A) (s : St) : St :=
  match arr with
  | [] => s
  | x :: rest => forEach_from f (S from) rest (f x from s)
  end.

Definition forEach {A St : Type} (f : A -> nat -> St -> St)
    (arr : list A) (s : St) : St :=
  forEach_from f 0 arr s.

(** ** Tabular normaliser (the body of [readSheetToJson] after the fetch) *)

Record table := Table {
  tab : jsstring;
  headers : list jsstring;
  rows : list jsobj
}.

(** The template literal [`Col${i + 1}`]. *)
Definition colName (i : nat) : jsstring := js "Col" ++ js (pretty (i + 1)%nat).

(** [row[i] ?? ""] *)
Definition cellOr (row : list jsstring) (i : nat) : jsstring :=
  default [] (row !! i).

(** [h || `Col${i + 1}`]: the empty string is the only falsy string. *)
Definition keyOf (h : jsstring) (i : nat) : jsstring :=
  match h with [] => colName i | _ => h end.

(** The callback of [body.map] in the branch [hasHeaders]. *)
Definition rowWithHeaders (hs : list jsstring) (row : list jsstring) : jsobj :=
  forEach (fun h i obj => obj_set (keyOf h i) (cellOr row i) obj) hs ∅.

(** [Array.from({ length: maxLen }, (_, i) => `Col${i + 1}`)] *)
Definition genHeaders (maxLen : nat) : list jsstring :=
  List.map colName (seq 0 maxLen).

(** The callback of [body.map] in the branch without headers. *)
Definition rowWithGenHeaders (gen : list jsstring) (row : list jsstring) : jsobj :=
  forEach (fun h i obj => obj_set h (cellOr row i) obj) gen ∅.

(** [headers.some((h) => h.length > 0)] *)
Definition hasHeaders (hs : list jsstring) : bool :=
  existsb (fun h => (0 <? length h)%nat) hs.

(** What a thrown exception is: what a rejected upstream promise
    carries, or the [RangeError] of a call that is given more arguments
    than the engine accepts. *)
Inductive error :=
  | UpstreamUnavailable (reason : jsstring)
  | RangeError.

(** [Math.max(...lengths)]: the spread passes every element as one
    argument of the call. With more arguments than the engine accepts
    ([argLimit]: in V8 it follows from the stack size and is of the
    order of 10^5) the call throws [RangeError]; otherwise it returns
    the largest element (the code calls it on a non-empty array). *)
Definition Math_max_spread (argLimit : N) (lengths : list nat) : error + nat :=
  if (argLimit <? N.of_nat (length lengths))%N then inl RangeError
  else inr (max_list lengths).

(** Lines 151-186 of [readSheetToJson]: from the fetched grid
    ([res.data.values || []], cells being strings) to the result
    object, or to the exception thrown on the way. *)
Definition normalize (argLimit : N) (tabName : jsstring) (grid : list (list jsstring))
    : error + table :=
  match grid with
  | [] => inr {| tab := tabName; headers := []; rows := [] |}
  | row0 :: body =>
      let hs := List.map trim row0 in
      if hasHeaders hs then
        inr {| tab := tabName; headers := hs;
               rows := List.map (rowWithHeaders hs) body |}
      else
        match Math_max_spread argLimit (List.map (@length jsstring) grid) with
        | inl err => inl err
        | inr maxLen =>
            inr {| tab := tabName; headers := hs;
                   rows := List.map (rowWithGenHeaders (genHeaders maxLen)) body |}
        end
  end.

(** ** Key deriver *)

(** UTF-8 encoding of a string, as [hash.update(str)] performs it: a
    surrogate pair is one code point, a lone surrogate becomes U+FFFD. *)
Definition utf8_of_code_point (c : N) : list N :=
  if c <? 0x80 then [c]
  else if c <? 0x800 then
    [N.lor 0xC0 (N.shiftr c 6); N.lor 0x80 (N.land c 0x3F)]
  else if c <? 0x10000 then
    [N.lor 0xE0 (N.shiftr c 12); N.lor 0x80 (N.land (N.shiftr c 6) 0x3F);
     N.lor 0x80 (N.land c 0x3F)]
  else
    [N.lor 0xF0 (N.shiftr c 18); N.lor 0x80 (N.land (N.shiftr c 12) 0x3F);
     N.lor 0x80 (N.land (N.shiftr c 6) 0x3F); N.lor 0x80 (N.land c 0x3F)].

Definition isHighSurrogate (u : N) : bool := (0xD800 <=? u) && (u <=? 0xDBFF).
Definition isLowSurrogate (u : N) : bool := (0xDC00 <=? u) && (u <=? 0xDFFF).
Definition replacement_utf8 : list N := [0xEF; 0xBF; 0xBD].

Fixpoint utf8 (s : jsstring) : list N :=
  match s with
  | [] => []
  | u :: r =>
      if isHighSurrogate u then
        match r with
        | v :: r' =>
            if isLowSurrogate v then
              utf8_of_code_point
                (0x10000 + N.shiftl (u - 0xD800) 10 + (v - 0xDC00)) ++ utf8 r'
            else replacement_utf8 ++ utf8 r
        | [] => replacement_utf8
        end
      else if isLowSurrogate u then replacement_utf8 ++ utf8 r
      else utf8_of_code_point u ++ utf8 r
  end.

(** MD5 (RFC 1321) on 32-bit words held in [N], wrap-around written out. *)
Module MD5.

Definition w32 (x : N) : N := x mod 2 ^ 32.
Definition not32 (x : N) : N := N.lxor x 0xFFFFFFFF.
Definition rotl32 (x s : N) : N :=
  N.lor (w32 (N.shiftl x s)) (N.shiftr x (32 - s)).

Definition K : list N :=
  [0xd76aa478; 0xe8c7b756; 0x242070db; 0xc1bdceee; 0xf57c0faf; 0x4787c62a; 0xa8304613; 0xfd469501;
   0x698098d8; 0x8b44f7af; 0xffff5bb1; 0x895cd7be; 0x6b901122; 0xfd987193; 0xa679438e; 0x49b40821;
   0xf61e2562; 0xc040b340; 0x265e5a51; 0xe9b6c7aa; 0xd62f105d; 0x02441453; 0xd8a1e681; 0xe7d3fbc8;
   0x21e1cde6; 0xc33707d6; 0xf4d50d87; 0x455a14ed; 0xa9e3e905; 0xfcefa3f8; 0x676f02d9; 0x8d2a4c8a;
   0xfffa3942; 0x8771f681; 0x6d9d6122; 0xfde5380c; 0xa4beea44; 0x4bdecfa9; 0xf6bb4b60; 0xbebfbc70;
   0x289b7ec6; 0xeaa127fa; 0xd4ef3085; 0x04881d05; 0xd9d4d039; 0xe6db99e5; 0x1fa27cf8; 0xc4ac5665;
   0xf4292244; 0x432aff97; 0xab9423a7; 0xfc93a039; 0x655b59c3; 0x8f0ccc92; 0xffeff47d; 0x85845dd1;
   0x6fa87e4f; 0xfe2ce6e0; 0xa3014314; 0x4e0811a1; 0xf7537e82; 0xbd3af235; 0x2ad7d2bb; 0xeb86d391].

Definition shifts : list N :=
  [7; 12; 17; 22; 7; 12; 17; 22; 7; 12; 17; 22; 7; 12; 17; 22;
   5; 9; 14; 20; 5; 9; 14; 20; 5; 9; 14; 20; 5; 9; 14; 20;
   4; 11; 16; 23; 4; 11; 16; 23; 4; 11; 16; 23; 4; 11; 16; 23;
   6; 10; 15; 21; 6; 10; 15; 21; 6; 10; 15; 21; 6; 10; 15; 21].

Definition state : Type := N * N * N * N.

Definition init : state := (0x67452301, 0xefcdab89, 0x98badcfe, 0x10325476).

(** One of the 64 operations of a block, on the 16 message words [M]. *)
Definition step (M : list N) (st : state) (i : nat) : state :=
  let '(a, b, c, d) := st in
  let '(f, g) :=
    if (i <? 16)%nat then
      (N.lor (N.land b c) (N.land (not32 b) d), i)
    else if (i <? 32)%nat then
      (N.lor (N.land d b) (N.land (not32 d) c), ((5 * i + 1) mod 16)%nat)
    else if (i <? 48)%nat then
      (N.lxor (N.lxor b c) d, ((3 * i + 5) mod 16)%nat)
    else
      (N.lxor c (N.lor b (not32 d)), ((7 * i) mod 16)%nat) in
  let f' := w32 (f + a + nth i K 0 + nth g M 0) in
  (d, w32 (b + rotl32 f' (nth i shifts 0)), b, c).

(** Little-endian bytes of a number, and back. *)
Fixpoint le_bytes (n : nat) (x : N) : list N :=
  match n with
  | O => []
  | S n' => x mod 256 :: le_bytes n' (x / 256)
  end.

Fixpoint le_word (bs : list N) : N :=
  match bs with
  | [] => 0
  | b :: r => b + 256 * le_word r
  end.

Definition words (block : list N) : list N :=
  List.map (fun k => le_word (firstn 4 (skipn (4 * k) block))) (seq 0 16).

Definition compress (st : state) (block : list N) : state :=
  let '(a0, b0, c0, d0) := st in
  let '(a, b, c, d) := fold_left (step (words block)) (seq 0 64) st in
  (w32 (a0 + a), w32 (b0 + b), w32 (c0 + c), w32 (d0 + d)).

Definition pad (msg : list N) : list N :=
  let len := length msg in
  msg ++ [0x80] ++ repeat 0 ((119 - len mod 64) mod 64)%nat
      ++ le_bytes 8 ((8 * N.of_nat len) mod 2 ^ 64).

Definition digest (msg : list N) : list N :=
  let padded := pad msg in
  let blocks :=
    List.map (fun j => firstn 64 (skipn (64 * j) padded))
             (seq 0 (length padded / 64)) in
  let '(a, b, c, d) := fold_left compress blocks init in
  le_bytes 4 a ++ le_bytes 4 b ++ le_bytes 4 c ++ le_bytes 4 d.

End MD5.

(** [digest("hex")]: two lower-case hexadecimal digits per byte. *)
Definition hexDigit (d : N) : N := if d <? 10 then 48 + d else 87 + d.

Definition hex (bytes : list N) : jsstring :=
  flat_map (fun b => [hexDigit (b / 16); hexDigit (b mod 16)]) bytes.

(** [crypto.createHash("md5").update(parts.join("|")).digest("hex")] *)
Definition cacheKey (parts : list jsstring) : jsstring :=
  hex (MD5.digest (utf8 (join (js "|") parts))).

(** ** Cache store *)

(** The values the server puts in the cache: the tab list stored by
    [listSheetTabs] and the result object stored by [readSheetToJson].
    The cache is untyped, so a reader gets back whichever was stored. *)
Inductive payload :=
  | Tabs (names : list jsstring)
  | Sheet (t : table).

(** [{ expiresAt, data }] *)
Record item := Item { expiresAt : Z; data : payload }.

(** Calls made on the Google client. *)
Inductive call :=
  | GetClient
  | SpreadsheetsGet
  | ValuesGet (range : jsstring).

(** The mutable state of the process: the [cache] map, the clock read
    by [Date.now()], and the upstream calls made so far, latest first. *)
Record world := World {
  cache : gmap (list N) item;
  clock : Z;
  upstreamLog : list call
}.

(** State and exceptions: a computation ends with a value or a thrown
    error, and in both cases with the world it left behind. *)
Definition M (A : Type) : Type := world -> (error + A) * world.

Definition ret {A : Type} (a : A) : M A := fun w => (inr a, w).

Definition bind {A B : Type} (m : M A) (k : A -> M B) : M B :=
  fun w =>
    match m w with
    | (inl e, w') => (inl e, w')
    | (inr a, w') => k a w'
    end.

Notation "x <- m ;; k" := (bind m (fun x => k))
  (at level 100, m at next level, right associativity).

Definition getCache (key : jsstring) : M (option payload) :=
  fun w =>
    match cache w !! key with
    | None => (inr None, w)
    | Some it =>
        if (clock w >? expiresAt it)%Z then
          (inr None,
           {| cache := delete key (cache w); clock := clock w;
              upstreamLog := upstreamLog w |})
        else (inr (Some (data it)), w)
    end.

Definition setCache (key : jsstring) (d : payload) (ttlMs : Z) : M unit :=
  fun w =>
    (inr tt,
     {| cache := <[key := {| expiresAt := (clock w + ttlMs)%Z; data := d |}]> (cache w);
        clock := clock w; upstreamLog := upstreamLog w |}).

(** ** Upstream collaborator *)

(** The settlement of an awaited call: the time that went by while it
    was pending and its rejection or value. *)
Record reply (A : Type) := Reply { elapsed : Z; outcome : error + A }.
Arguments Reply {A}.
Arguments elapsed {A}.
Arguments outcome {A}.

(** The Google Sheets client. Each answer may depend on the calls made
    before and on the time of the call.
    - [getSheetsApi]: building the authorised client.
    - [spreadsheets_get]: [meta.data.sheets], each sheet reduced to its
      [properties?.title]; [None] stands for [undefined].
    - [values_get]: [res.data.values] for a range. *)
Record upstream := Upstream {
  getSheetsApi : list call -> Z -> reply unit;
  spreadsheets_get : list call -> Z -> reply (option (list (option jsstring)));
  values_get : jsstring -> list call -> Z -> reply (option (list (list jsstring)))
}.

(** Process configuration, collaborators and engine. [SHEET_ID] is
    [process.env.SHEET_ID], [None] when the variable is not set;
    [argumentLimit] is the largest number of arguments the engine
    accepts in one call. *)
Record env := Env {
  SHEET_ID : option jsstring;
  CACHE_TTL_MS : Z;
  sheets : upstream;
  argumentLimit : N
}.

(** A computation that ends at once with the given outcome. *)
Definition liftResult {A : Type} (r : error + A) : M A := fun w => (r, w).

(** [await] of an upstream call: the call is logged, the clock moves,
    and the rejection, if any, is thrown. *)
Definition await {A : Type} (c : call) (answer : list call -> Z -> reply A) : M A :=
  fun w =>
    let r := answer (upstreamLog w) (clock w) in
    (outcome r,
     {| cache := cache w; clock := (clock w + elapsed r)%Z;
        upstreamLog := c :: upstreamLog w |}).

(** ** Sheet loader *)

(** [SHEET_ID] as an element of the array given to [cacheKey]: [join]
    renders [undefined] as the empty string. *)
Definition sheetIdPart (e : env) : jsstring := default [] (SHEET_ID e).

(** [sheets?.map((s) => s.properties?.title).filter(Boolean) || []] *)
Definition tabTitles (sh : option (list (option jsstring))) : list jsstring :=
  match sh with
  | None => []
  | Some l =>
      omap (fun t => match t with
                     | Some (u :: r) => Some (u :: r)
                     | _ => None
                     end) l
  end.

(** Lines 121-125: the client, then [spreadsheets.get]. *)
Definition fetchTabTitles (e : env) : M (option (list (option jsstring))) :=
  _ <- await GetClient (getSheetsApi (sheets e)) ;;
  await SpreadsheetsGet (spreadsheets_get (sheets e)).

Definition listSheetTabs (e : env) : M payload :=
  let key := cacheKey [js "tabs"; sheetIdPart e] in
  cached <- getCache key ;;
  match cached with
  | Some v => ret v
  | None =>
      meta <- fetchTabTitles e ;;
      let tabs := Tabs (tabTitles meta) in
      _ <- setCache key tabs (CACHE_TTL_MS e) ;;
      ret tabs
  end.

(** The range [`'${tabName}'`]. *)
Definition rangeOf (tabName : jsstring) : jsstring := js "'" ++ tabName ++ js "'".

(** Lines 144-149: the client, then [spreadsheets.values.get] on the
    range of the tab. *)
Definition fetchGrid (e : env) (tabName : jsstring) : M (option (list (list jsstring))) :=
  _ <- await GetClient (getSheetsApi (sheets e)) ;;
  await (ValuesGet (rangeOf tabName)) (values_get (sheets e) (rangeOf tabName)).

(** The two [setCache]/[return] pairs of the source (empty grid, and
    the general case) are the single one after [normalize] here; an
    exception of [normalize] leaves before it. *)
Definition readSheetToJson (e : env) (tabName : jsstring) : M payload :=
  let key := cacheKey [js "data"; sheetIdPart e; tabName] in
  cached <- getCache key ;;
  match cached with
  | Some v => ret v
  | None =>
      values <- fetchGrid e tabName ;;
      t <- liftResult (normalize (argumentLimit e) tabName (default [] values)) ;;
      let result := Sheet t in
      _ <- setCache key result (CACHE_TTL_MS e) ;;
      ret result
  end.

(** ** The route [/api/data/:tab] *)

Inductive resBody :=
  | ErrorBody (message : jsstring)
  | JsonBody (d : payload).

Record response := Response { status : N; body : resBody }.

(** [!SHEET_ID] *)
Definition sheetIdMissing (e : env) : bool :=
  match SHEET_ID e with
  | None | Some [] => true
  | Some (_ :: _) => false
  end.

Definition readError (tab : jsstring) : response :=
  {| status := 500;
     body := ErrorBody (js "No se pudo leer la hoja '" ++ tab ++ js "'") |}.

Definition notFound (tab : jsstring) (tabs : list jsstring) : response :=
  {| status := 404;
     body := ErrorBody (js "La hoja '" ++ tab
                        ++ js "' no existe. Hojas disponibles: "
                        ++ join (js ", ") tabs) |}.

(** The handler never throws: the [catch] answers 500. When the cached
    value under the tab-list key is not an array, [tabs.includes] is not
    a function and the resulting [TypeError] is caught the same way. *)
Definition api_data (e : env) (tab : jsstring) (w : world) : response * world :=
  if sheetIdMissing e then
    ({| status := 400;
        body := ErrorBody
          (js "Falta configurar SHEET_ID en variables de entorno.") |}, w)
  else
    match listSheetTabs e w with
    | (inl _, w1) => (readError tab, w1)
    | (inr (Sheet _), w1) => (readError tab, w1)
    | (inr (Tabs tabs), w1) =>
        if bool_decide (tab ∈ tabs) then
          match readSheetToJson e tab w1 with
          | (inl _, w2) => (readError tab, w2)
          | (inr d, w2) => ({| status := 200; body := JsonBody d |}, w2)
          end
        else (notFound tab tabs, w1)
    end.

(** The number of grid fetches ([spreadsheets.values.get]) in a log. *)
Definition gridFetches (log : list call) : nat :=
  length (List.filter (fun c => match c with ValuesGet _ => true | _ => false end) log).

(** The world a later request finds when nothing ran in between and
    the clock reads [t]. *)
Definition at_time (t : Z) (w : world) : world :=
  {| cache := cache w; clock := t; upstreamLog := upstreamLog w |}.

(** An upstream that is down: every call is rejected at once. *)
Definition upstream_down (reason : jsstring) : upstream :=
  {| getSheetsApi := fun _ _ => Reply 0 (inl (UpstreamUnavailable reason));
     spreadsheets_get := fun _ _ => Reply 0 (inl (UpstreamUnavailable reason));
     values_get := fun _ _ _ => Reply 0 (inl (UpstreamUnavailable reason)) |}.

(** An upstream that serves one fixed spreadsheet, each call taking
    [latency] milliseconds. *)
Definition upstream_fixed (latency : Z) (titles : list jsstring)
    (grid : jsstring -> list (list jsstring)) : upstream :=
  {| getSheetsApi := fun _ _ => Reply latency (inr tt);
     spreadsheets_get := fun _ _ => Reply latency (inr (Some (List.map Some titles)));
     values_get := fun range _ _ => Reply latency (inr (Some (grid range))) |}.

(** ** The routes [/api/sheets] and [/api/data-all] *)

(** The body of [/api/sheets]: an error message, or
    [{ sheetId: SHEET_ID, tabs }]. *)
Inductive sheetsBody :=
  | SheetsError (message : jsstring)
  | SheetsList (sheetId : jsstring) (tabs : payload).

(** Lines 197-210. [SHEET_ID] is a non-empty string where it is put in
    the answer. *)
Definition api_sheets (e : env) (w : world) : (N * sheetsBody) * world :=
  if sheetIdMissing e then
    ((400, SheetsError (js "Falta configurar SHEET_ID en variables de entorno.")), w)
  else
    match listSheetTabs e w with
    | (inl _, w1) => ((500, SheetsError (js "No se pudo obtener la lista de hojas")), w1)
    | (inr tabs, w1) => ((200, SheetsList (sheetIdPart e) tabs), w1)
    end.

(** [payload[t] = v] on an object created by [{}], for an object [v]
    (a result table or a tab list). Under the name ["__proto__"] the
    inherited setter makes [v] the prototype and no own property
    appears; [res.json] serialises own properties only. *)
Definition payload_set (t : jsstring) (v : payload) (p : gmap (list N) payload)
    : gmap (list N) payload :=
  if decide (t = js "__proto__") then p else <[t := v]> p.

(** [for (const t of tabs) { payload[t] = await readSheetToJson(t); }] *)
Fixpoint readAll (e : env) (tabs : list jsstring) (p : gmap (list N) payload)
    : M (gmap (list N) payload) :=
  match tabs with
  | [] => ret p
  | t :: rest =>
      d <- readSheetToJson e t ;;
      readAll e rest (payload_set t d p)
  end.

Inductive allBody :=
  | AllError (message : jsstring)
  | AllSheets (p : gmap (list N) payload).

(** Lines 238-255. A cached value under the tab-list key that is not an
    array is not iterable: [for ... of] throws and the [catch] answers. *)
Definition api_data_all (e : env) (w : world) : (N * allBody) * world :=
  if sheetIdMissing e then
    ((400, AllError (js "Falta configurar SHEET_ID en variables de entorno.")), w)
  else
    match listSheetTabs e w with
    | (inl _, w1) => ((500, AllError (js "No se pudieron leer las hojas")), w1)
    | (inr (Sheet _), w1) => ((500, AllError (js "No se pudieron leer las hojas")), w1)
    | (inr (Tabs tabs), w1) =>
        match readAll e tabs ∅ w1 with
        | (inl _, w2) => ((500, AllError (js "No se pudieron leer las hojas")), w2)
        | (inr p, w2) => ((200, AllSheets p), w2)
        end
    end.

(** ** CORS configuration (lines 24-43) *)

(** [s.split(",")]: the pieces between commas, one piece for a string
    without comma, the empty string included. *)
Fixpoint split_comma (s : jsstring) : list jsstring :=
  match s with
  | [] => [[]]
  | u :: r =>
      if u =? 44 then [] :: split_comma r
      else match split_comma r with
           | [] => [[u]]
           | p :: ps => (u :: p) :: ps
           end
  end.

(** [(process.env.ALLOWED_ORIGINS || "").split(",").map((s) => s.trim())
    .filter(Boolean)] *)
Definition allowedOrigins (env_value : option jsstring) : list jsstring :=
  List.filter (fun o => (0 <? length o)%nat)
              (List.map trim (split_comma (default [] env_value))).

(** The [origin] callback of [cors]: what it passes to [cb] for the
    [Origin] header of a request, [None] when the header is absent. *)
Definition originAllowed (allowed : list jsstring) (origin : option jsstring) : bool :=
  match origin with
  | None | Some [] => true
  | Some o =>
      match allowed with
      | [] => true
      | _ => bool_decide (o ∈ allowed)
      end
  end.

(** A row cut, or padded with empty strings, to [n] cells. *)
Definition fit (n : nat) (row : list jsstring) : list jsstring :=
  take n row ++ replicate (n - length row) [].

(** A lower-case hexadecimal digit: [0-9] or [a-f]. *)
Definition isHexDigit (u : N) : Prop := (48 <= u <= 57) \/ (97 <= u <= 102).

(** * Properties *)

(** ** Test vectors *)

Example cacheKey_empty : cacheKey [] = js "d41d8cd98f00b204e9800998ecf8427e".
Proof. vm_compute. reflexivity. Qed.

Example cacheKey_abc : cacheKey [js "abc"] = js "900150983cd24fb0d6963f7d28e17f72".
Proof. vm_compute. reflexivity. Qed.

Example cacheKey_two_blocks :
  cacheKey [repeat 97 35; repeat 97 34]
  = hex (MD5.digest (repeat 97 35 ++ [124] ++ repeat 97 34)).
Proof. vm_compute. reflexivity. Qed.

Example md5_seventy_a :
  hex (MD5.digest (repeat 97 70)) = js "0f5c6c4e740bfcc08c3c26ccb2673d46".
Proof. vm_compute. reflexivity. Qed.

(** Message lengths around the padding boundaries. *)
Example md5_padding_boundaries :
  List.map (fun n => hex (MD5.digest (repeat 97 n))) [55; 56; 63; 64; 119; 120]%nat
  = [js "ef1772b6dff9a122358552954ad0df65"; js "3b0c8ac703f828b04c6c197006d17218";
     js "b06521f39153d618550606be297466d5"; js "014842d480b571495a4a0363793f7367";
     js "8a7bd0732ed6a28ce75f6dabc90e1613"; js "5f61c0ccad4cac44c75ff505e1f1e537"].
Proof. vm_compute. reflexivity. Qed.

(** "h", e-acute, and U+1F600 as a surrogate pair. *)
Example cacheKey_non_ascii :
  cacheKey [[104; 0xE9; 0xD83D; 0xDE00]] = js "7510e1df27cb4446ae7f0bad18735f92".
Proof. vm_compute. reflexivity. Qed.

(** The specification's example of a grid with headers. *)
Example normalize_with_headers :
  normalize 125000 (js "T")
    [[js " Name "; js "Age"]; [js "Ana"; js "30"]; [js "Leo"]]
  = inr {| tab := js "T"; headers := [js "Name"; js "Age"];
           rows := [ {[ js "Name" := js "Ana"; js "Age" := js "30" ]};
                     {[ js "Name" := js "Leo"; js "Age" := js "" ]} ] |}.
Proof. vm_compute. reflexivity. Qed.

(** ** Property assignment in a loop *)

Lemma js_inj (s t : string) : js s = js t -> s = t.
Proof.
  unfold js. revert t.
  induction s as [|a s IH]; intros [|b t] H; simpl in H; try discriminate.
  - reflexivity.
  - injection H as Hab Hst.
    f_equal; [| now apply IH].
    rewrite <- (ascii_N_embedding a), <- (ascii_N_embedding b).
    now rewrite Hab.
Qed.

Lemma colName_inj (i j : nat) : colName i = colName j -> i = j.
Proof.
  unfold colName. intros H.
  apply app_inv_head, js_inj in H.
  apply (inj pretty) in H. lia.
Qed.

Lemma colName_not_proto (i : nat) : colName i <> js "__proto__".
Proof. unfold colName. simpl. discriminate. Qed.

Lemma map_as_fmap {A B : Type} (f : A -> B) (l : list A) : List.map f l = f <$> l.
Proof. reflexivity. Qed.

Lemma obj_set_lookup_ne (k' k v : jsstring) (obj : jsobj) :
  k' <> k -> obj_set k' v obj !! k = obj !! k.
Proof.
  intros Hne. unfold obj_set. case_decide; [reflexivity|].
  now apply lookup_insert_ne.
Qed.

Lemma obj_set_lookup_eq (k v : jsstring) (obj : jsobj) :
  k <> js "__proto__" -> obj_set k v obj !! k = Some v.
Proof.
  intros Hne. unfold obj_set. case_decide; [contradiction|].
  apply lookup_insert_eq.
Qed.

Lemma obj_set_size (k v : jsstring) (obj : jsobj) :
  (size (obj_set k v obj) <= S (size obj))%nat.
Proof.
  unfold obj_set. case_decide; [lia|].
  destruct (obj !! k) eqn:E.
  - rewrite map_size_insert_Some by eauto. lia.
  - rewrite map_size_insert_None by assumption. lia.
Qed.

Lemma obj_set_size_present (k v : jsstring) (obj : jsobj) :
  k = js "__proto__" \/ is_Some (obj !! k) ->
  size (obj_set k v obj) = size obj.
Proof.
  intros H. unfold obj_set. case_decide; [reflexivity|].
  destruct H as [H|H]; [contradiction|].
  now apply map_size_insert_Some.
Qed.

Lemma forEach_from_app {A St : Type} (f : A -> nat -> St -> St)
    (l1 l2 : list A) (n : nat) (s : St) :
  forEach_from f n (l1 ++ l2) s
  = forEach_from f (n + length l1) l2 (forEach_from f n l1 s).
Proof.
  revert n s. induction l1 as [|x l1 IH]; intros n s; simpl.
  - now rewrite Nat.add_0_r.
  - rewrite IH. now rewrite Nat.add_succ_r.
Qed.

Section Assign.
(** A loop that assigns, at every position [i] of [hs], the value
    [vf i] to the property [kf h i]. *)
Variable kf : jsstring -> nat -> jsstring.
Variable vf : nat -> jsstring.

Let assign (h : jsstring) (i : nat) (obj : jsobj) : jsobj :=
  obj_set (kf h i) (vf i) obj.

Lemma assign_unwritten (hs : list jsstring) (n : nat) (obj : jsobj) (k : jsstring) :
  (forall j h, hs !! j = Some h -> kf h (n + j) <> k) ->
  forEach_from assign n hs obj !! k = obj !! k.
Proof.
  revert n obj. induction hs as [|x hs IH]; intros n obj H; simpl; [reflexivity|].
  rewrite IH.
  - apply obj_set_lookup_ne. specialize (H 0%nat x eq_refl).
    now rewrite Nat.add_0_r in H.
  - intros j h Hj. specialize (H (S j) h Hj).
    now replace (n + S j)%nat with (S n + j)%nat in H by lia.
Qed.

Lemma assign_proto (hs : list jsstring) (n : nat) (obj : jsobj) :
  forEach_from assign n hs obj !! js "__proto__" = obj !! js "__proto__".
Proof.
  revert n obj. induction hs as [|x hs IH]; intros n obj; simpl; [reflexivity|].
  rewrite IH. unfold assign, obj_set.
  case_decide as E; [reflexivity|]. now apply lookup_insert_ne.
Qed.

Lemma assign_last_writer (hs : list jsstring) (n : nat) (obj : jsobj)
    (j : nat) (h k : jsstring) :
  hs !! j = Some h -> kf h (n + j) = k -> k <> js "__proto__" ->
  (forall j' h', (j < j')%nat -> hs !! j' = Some h' -> kf h' (n + j') <> k) ->
  forEach_from assign n hs obj !! k = Some (vf (n + j)).
Proof.
  revert n obj j. induction hs as [|x hs IH]; intros n obj j Hj Hk Hp Hlast.
  - discriminate.
  - destruct j as [|j]; simpl.
    + injection Hj as ->. rewrite Nat.add_0_r in *.
      rewrite assign_unwritten.
      * unfold assign. rewrite Hk. now apply obj_set_lookup_eq.
      * intros j' h' Hj'.
        replace (S n + j')%nat with (n + S j')%nat by lia.
        apply Hlast; [lia | exact Hj'].
    + replace (n + S j)%nat with (S n + j)%nat in * by lia.
      apply IH; try assumption.
      intros j' h' Hlt Hj'.
      replace (S n + j')%nat with (n + S j')%nat by lia.
      apply Hlast; [lia | exact Hj'].
Qed.

Lemma assign_origin (hs : list jsstring) (n : nat) (obj : jsobj) (k v : jsstring) :
  forEach_from assign n hs obj !! k = Some v ->
  obj !! k = Some v \/
  exists j h, hs !! j = Some h /\ kf h (n + j) = k /\ v = vf (n + j).
Proof.
  revert n obj. induction hs as [|x hs IH]; intros n obj H; simpl in H; [now left|].
  apply IH in H as [H | (j & h & Hj & Hk & Hv)].
  - unfold assign, obj_set in H. case_decide; [now left|].
    destruct (decide (kf x n = k)) as [E|E].
    + rewrite E, lookup_insert_eq in H. injection H as <-.
      right. exists 0%nat, x. now rewrite Nat.add_0_r.
    + rewrite lookup_insert_ne in H by assumption. now left.
  - right. exists (S j), h.
    now replace (n + S j)%nat with (S n + j)%nat by lia.
Qed.

Lemma assign_keeps (hs : list jsstring) (n : nat) (obj : jsobj) (k : jsstring) :
  is_Some (obj !! k) -> is_Some (forEach_from assign n hs obj !! k).
Proof.
  revert n obj. induction hs as [|x hs IH]; intros n obj H; simpl; [assumption|].
  apply IH. unfold assign, obj_set. case_decide; [assumption|].
  destruct (decide (kf x n = k)) as [E|E].
  - rewrite E, lookup_insert_eq. eauto.
  - now rewrite lookup_insert_ne.
Qed.

Lemma assign_written (hs : list jsstring) (n : nat) (obj : jsobj) (j : nat) (h : jsstring) :
  hs !! j = Some h -> kf h (n + j) <> js "__proto__" ->
  is_Some (forEach_from assign n hs obj !! kf h (n + j)).
Proof.
  revert n obj j. induction hs as [|x hs IH]; intros n obj j Hj Hp; [discriminate|].
  destruct j as [|j]; simpl.
  - injection Hj as ->. rewrite Nat.add_0_r in *.
    apply assign_keeps. unfold assign. rewrite obj_set_lookup_eq; eauto.
  - replace (n + S j)%nat with (S n + j)%nat in * by lia.
    now apply IH.
Qed.

Lemma assign_size (hs : list jsstring) (n : nat) (obj : jsobj) :
  (size (forEach_from assign n hs obj) <= size obj + length hs)%nat.
Proof.
  revert n obj. induction hs as [|x hs IH]; intros n obj; simpl; [lia|].
  etransitivity; [apply IH|].
  pose proof (obj_set_size (kf x n) (vf n) obj). unfold assign. lia.
Qed.

Lemma assign_size_duplicate (hs : list jsstring) (j1 j2 : nat) (h1 h2 : jsstring) :
  (j1 < j2)%nat -> hs !! j1 = Some h1 -> hs !! j2 = Some h2 ->
  kf h1 j1 = kf h2 j2 ->
  (size (forEach assign hs (∅ : jsobj)) < length hs)%nat.
Proof.
  intros Hlt H1 H2 Hk. unfold forEach.
  rewrite <- (take_drop_middle hs j2 h2 H2).
  pose proof (lookup_lt_Some _ _ _ H2) as Hlen.
  rewrite forEach_from_app. simpl.
  rewrite length_app, length_take. simpl.
  rewrite length_drop.
  replace (j2 `min` length hs)%nat with j2 by lia.
  set (o1 := forEach_from assign 0 (take j2 hs) ∅).
  assert (size o1 <= j2)%nat as Ho1.
  { pose proof (assign_size (take j2 hs) 0 ∅) as S1.
    rewrite map_size_empty, length_take in S1. subst o1. lia. }
  assert (size (assign h2 j2 o1) = size o1) as Hstep.
  { unfold assign. apply obj_set_size_present.
    destruct (decide (kf h2 j2 = js "__proto__")) as [E|E]; [now left|right].
    rewrite <- Hk. subst o1.
    apply (assign_written (take j2 hs) 0 ∅ j1 h1).
    - rewrite lookup_take_lt by lia. exact H1.
    - simpl. now rewrite Hk. }
  pose proof (assign_size (drop (S j2) hs) (S j2) (assign h2 j2 o1)) as S2.
  rewrite length_drop in S2. simpl. lia.
Qed.
(** Every field of the finished record was written by the right-most
    position whose key is the field's name. *)
Lemma assign_from_last (hs : list jsstring) (n : nat) (k v : jsstring) :
  forEach_from assign n hs ∅ !! k = Some v ->
  exists j h, hs !! j = Some h /\ kf h (n + j) = k /\ v = vf (n + j)
    /\ forall j' h', (j < j')%nat -> hs !! j' = Some h' -> kf h' (n + j') <> k.
Proof.
  induction hs as [|x hs IH] using rev_ind; intros H.
  - simpl in H. now rewrite lookup_empty in H.
  - rewrite forEach_from_app in H. simpl in H.
    destruct (decide (kf x (n + length hs) = k)) as [E|E].
    + assert (k <> js "__proto__") as Hp.
      { intros ->. unfold assign in H. rewrite E in H. unfold obj_set in H.
        rewrite decide_True in H by reflexivity.
        rewrite assign_proto, lookup_empty in H. discriminate. }
      unfold assign in H. rewrite E, obj_set_lookup_eq in H by assumption.
      injection H as <-. exists (length hs), x.
      split; [apply list_lookup_middle; reflexivity|]. split; [exact E|].
      split; [reflexivity|].
      intros j' h' Hlt Hj'. apply lookup_lt_Some in Hj'.
      rewrite length_app in Hj'. simpl in Hj'. lia.
    + unfold assign in H. rewrite obj_set_lookup_ne in H by assumption.
      destruct (IH H) as (j & h & Hj & Hk & Hv & Hlast).
      exists j, h. split; [now apply lookup_app_l_Some|]. split; [exact Hk|].
      split; [exact Hv|].
      intros j' h' Hlt Hj'.
      destruct (decide (j' < length hs)%nat) as [Hin|Hout].
      * rewrite lookup_app_l in Hj' by assumption. now apply (Hlast j' h').
      * pose proof (lookup_lt_Some _ _ _ Hj') as Hb.
        rewrite length_app in Hb. simpl in Hb.
        assert (j' = length hs) as -> by lia.
        rewrite list_lookup_middle in Hj' by reflexivity.
        injection Hj' as <-. exact E.
Qed.
End Assign.

(** ** The normaliser *)

Lemma hasHeaders_false (hs : list jsstring) :
  hasHeaders hs = false <-> Forall (fun h => h = []) hs.
Proof.
  unfold hasHeaders. induction hs as [|h hs IH]; simpl.
  - split; [constructor | reflexivity].
  - rewrite orb_false_iff, IH. split.
    + intros [Hh Hhs]. constructor; [|assumption].
      destruct h; [reflexivity | discriminate].
    + intros H. inversion H; subst. now split.
Qed.

Lemma hasHeaders_trimmed_empty (row0 : list jsstring) :
  Forall (fun c => trim c = []) row0 -> hasHeaders (List.map trim row0) = false.
Proof.
  intros H. apply hasHeaders_false. rewrite map_as_fmap.
  apply Forall_fmap. exact H.
Qed.

Lemma hasHeaders_nonempty (hs : list jsstring) (j : nat) (h : jsstring) :
  hs !! j = Some h -> h <> [] -> hasHeaders hs = true.
Proof.
  intros Hj Hne. destruct (hasHeaders hs) eqn:E; [reflexivity|].
  apply hasHeaders_false in E.
  rewrite Forall_lookup in E. now specialize (E j h Hj).
Qed.

Lemma genHeaders_lookup (n j : nat) (h : jsstring) :
  genHeaders n !! j = Some h <-> h = colName j /\ (j < n)%nat.
Proof.
  unfold genHeaders. rewrite map_as_fmap, list_lookup_fmap. split.
  - intros H. destruct (seq 0 n !! j) as [j'|] eqn:E; [|discriminate].
    apply lookup_seq in E as [-> Hlt]. simpl in H. injection H as <-. now split.
  - intros [-> Hlt]. now rewrite lookup_seq_lt.
Qed.

(** The record of a row under synthesized names: one field per column
    [j < n], holding [row[j] ?? ""], and nothing else. *)
Lemma rowWithGenHeaders_fields (n : nat) (row : list jsstring) :
  (forall j, (j < n)%nat ->
     rowWithGenHeaders (genHeaders n) row !! colName j = Some (cellOr row j))
  /\ (forall k, is_Some (rowWithGenHeaders (genHeaders n) row !! k) ->
        exists j, (j < n)%nat /\ k = colName j).
Proof.
  unfold rowWithGenHeaders, forEach. split.
  - intros j Hj.
    apply (assign_last_writer (fun h _ => h) (cellOr row) (genHeaders n) 0 ∅ j (colName j)).
    + now apply genHeaders_lookup.
    + reflexivity.
    + apply colName_not_proto.
    + intros j' h' Hlt Hj' Heq. apply genHeaders_lookup in Hj' as [-> _].
      apply colName_inj in Heq. lia.
  - intros k [v Hv].
    apply (assign_origin (fun h _ => h) (cellOr row)) in Hv
      as [Hv | (j & h & Hj & Hk & _)].
    + now rewrite lookup_empty in Hv.
    + apply genHeaders_lookup in Hj as [-> Hlt]. exists j. now split.
Qed.

(** The record of a row under real headers, for a column whose key is
    not written again by a later column. *)
Lemma rowWithHeaders_field (hs row : list jsstring) (j : nat) (h : jsstring) :
  hs !! j = Some h -> keyOf h j <> js "__proto__" ->
  (forall j' h', (j < j')%nat -> hs !! j' = Some h' -> keyOf h' j' <> keyOf h j) ->
  rowWithHeaders hs row !! keyOf h j = Some (cellOr row j).
Proof.
  intros Hj Hp Hlast. unfold rowWithHeaders, forEach.
  now apply (assign_last_writer keyOf (cellOr row) hs 0 ∅ j h).
Qed.

(** Under real headers every column whose key is not ["__proto__"] has
    a field, and every field holds the cell of the right-most column
    whose key is the field's name. *)
Lemma rowWithHeaders_defined (hs row : list jsstring) :
  (forall j h, hs !! j = Some h -> keyOf h j <> js "__proto__" ->
     is_Some (rowWithHeaders hs row !! keyOf h j))
  /\ (forall k v, rowWithHeaders hs row !! k = Some v ->
        exists j h, hs !! j = Some h /\ keyOf h j = k /\ v = cellOr row j
          /\ forall j' h', (j < j')%nat -> hs !! j' = Some h' -> keyOf h' j' <> k).
Proof.
  unfold rowWithHeaders, forEach. split.
  - intros j h Hj Hp.
    now apply (assign_written keyOf (cellOr row) hs 0 ∅ j h).
  - intros k v Hv.
    exact (assign_from_last keyOf (cellOr row) hs 0 k v Hv).
Qed.

Lemma hasHeaders_some_cell (row0 : list jsstring) :
  Exists (fun c => trim c <> []) row0 -> hasHeaders (List.map trim row0) = true.
Proof.
  intros H. apply Exists_exists in H as (c & Hin & Hc).
  apply list_elem_of_lookup in Hin as [j Hj].
  apply (hasHeaders_nonempty _ j (trim c)); [|exact Hc].
  rewrite map_as_fmap, list_lookup_fmap, Hj. reflexivity.
Qed.

(** The three ways through [normalize] on a non-empty grid. *)
Lemma normalize_headers_branch (argLimit : N) (tabName : jsstring)
    (row0 : list jsstring) (body : list (list jsstring)) :
  hasHeaders (List.map trim row0) = true ->
  normalize argLimit tabName (row0 :: body)
  = inr {| tab := tabName; headers := List.map trim row0;
           rows := List.map (rowWithHeaders (List.map trim row0)) body |}.
Proof. intros H. unfold normalize. now rewrite H. Qed.

Lemma normalize_blank_branch (argLimit : N) (tabName : jsstring)
    (row0 : list jsstring) (body : list (list jsstring)) :
  hasHeaders (List.map trim row0) = false ->
  (N.of_nat (length (row0 :: body)) <= argLimit)%N ->
  normalize argLimit tabName (row0 :: body)
  = inr {| tab := tabName; headers := List.map trim row0;
           rows := List.map
                     (rowWithGenHeaders
                        (genHeaders (max_list (List.map (@length (list N)) (row0 :: body)))))
                     body |}.
Proof.
  intros H Hle. unfold normalize, Math_max_spread. rewrite H.
  rewrite List.length_map.
  destruct (N.ltb_spec argLimit (N.of_nat (length (row0 :: body)))); [lia | reflexivity].
Qed.

Lemma normalize_blank_throws (argLimit : N) (tabName : jsstring)
    (row0 : list jsstring) (body : list (list jsstring)) :
  hasHeaders (List.map trim row0) = false ->
  (argLimit < N.of_nat (length (row0 :: body)))%N ->
  normalize argLimit tabName (row0 :: body) = inl RangeError.
Proof.
  intros H Hlt. unfold normalize, Math_max_spread. rewrite H.
  rewrite List.length_map.
  destruct (N.ltb_spec argLimit (N.of_nat (length (row0 :: body)))); [reflexivity | lia].
Qed.

(** C1 (as the code has it). When every cell of the first row is empty
    after trimming and the grid has no more rows than one call takes
    arguments, the column count [n] is the largest row length of the
    whole grid, first row included; the reported headers are the
    trimmed first row; and each row after the first, in order, becomes
    the record with exactly the fields [Col1..Coln], field [Col(j+1)]
    holding [row[j]] or the empty string. The first row itself yields
    no record. *)
Theorem normalize_no_headers (argLimit : N) (tabName : jsstring) (row0 : list jsstring)
    (body : list (list jsstring)) :
  Forall (fun c => trim c = []) row0 ->
  (N.of_nat (length (row0 :: body)) <= argLimit)%N ->
  let n := max_list (List.map (@length (list N)) (row0 :: body)) in
  (forall r, r ∈ row0 :: body -> (length r <= n)%nat)
  /\ (exists r, r ∈ row0 :: body /\ length r = n)
  /\ exists t, normalize argLimit tabName (row0 :: body) = inr t
       /\ headers t = List.map trim row0
       /\ length (rows t) = length body
       /\ forall i row, body !! i = Some row ->
            exists rec, rows t !! i = Some rec
              /\ (forall j, (j < n)%nat -> rec !! colName j = Some (cellOr row j))
              /\ (forall k, is_Some (rec !! k) -> exists j, (j < n)%nat /\ k = colName j).
Proof.
  intros Hempty Hfits n.
  assert (List.map (@length (list N)) (row0 :: body) <> []) as Hne by discriminate.
  split; [|split].
  - intros r Hr. apply max_list_elem_of_le. rewrite map_as_fmap.
    apply list_elem_of_fmap. now exists r.
  - pose proof (max_list_elem_of _ Hne) as Hin. fold n in Hin.
    rewrite map_as_fmap in Hin. apply list_elem_of_fmap in Hin as (r & Hr & Hin).
    exists r. now split.
  - eexists. split.
    + apply normalize_blank_branch; [now apply hasHeaders_trimmed_empty | exact Hfits].
    + fold n. simpl. split; [reflexivity|]. split; [apply List.length_map|].
      intros i row Hi.
      exists (rowWithGenHeaders (genHeaders n) row). split.
      * rewrite map_as_fmap, list_lookup_fmap, Hi. reflexivity.
      * apply rowWithGenHeaders_fields.
Qed.

Lemma normalize_no_headers_witness :
  exists t rec,
    normalize 125000 (js "Hoja") [[js " "; js ""]; [js "a"; js "b"; js "c"]] = inr t
    /\ rows t !! 0%nat = Some rec
    /\ rec !! colName 2 = Some (js "c").
Proof.
  destruct (normalize_no_headers 125000 (js "Hoja") [js " "; js ""]
              [[js "a"; js "b"; js "c"]])
    as (_ & _ & t & Ht & _ & _ & H).
  - repeat constructor.
  - vm_compute. discriminate.
  - destruct (H 0%nat [js "a"; js "b"; js "c"] eq_refl) as (rec & Hrec & Hfield & _).
    exists t, rec. split; [exact Ht|]. split; [exact Hrec|].
    apply (Hfield 2%nat). vm_compute. lia.
Defined.

(** C1 (as the specification has it) fails: on the specification's own
    example the first row is not turned into a record, so the grid of
    three rows yields two records. *)
Lemma normalize_no_headers_counterexample :
  let grid := [[js ""; js ""; js ""]; [js "a"; js "b"; js "c"]; [js "d"; js "e"]] in
  let records :=
    [ ({[ js "Col1" := js "a"; js "Col2" := js "b"; js "Col3" := js "c" ]}
         : gmap (list N) (list N));
      {[ js "Col1" := js "d"; js "Col2" := js "e"; js "Col3" := js "" ]} ] in
  Forall (fun c => trim c = []) [js ""; js ""; js ""]
  /\ normalize 125000 (js "Sheet1") grid
     = inr {| tab := js "Sheet1"; headers := [js ""; js ""; js ""]; rows := records |}
  /\ length records <> length grid.
Proof.
  cbv zeta. split; [repeat constructor|]. split.
  - vm_compute. reflexivity.
  - vm_compute. discriminate.
Qed.

(** C3 (as the code has it). When the trimmed first row has a
    non-empty cell and no header is ["__proto__"]: the reported headers
    are the trimmed first row, and each body row becomes, in order, a
    record that has a field for every header position [j], keyed by
    [headers[j]] or, for an empty header, by [Col(j+1)]. Every field
    holds [row[j']] or the empty string for the right-most column [j']
    with that key; so the field of position [j] holds [row[j]] or the
    empty string whenever no later column has the same key. *)
Theorem normalize_headers_fields (argLimit : N) (tabName : jsstring)
    (row0 : list jsstring) (body : list (list jsstring)) :
  let hs := List.map trim row0 in
  Exists (fun c => trim c <> []) row0 ->
  js "__proto__" ∉ hs ->
  exists t, normalize argLimit tabName (row0 :: body) = inr t
  /\ headers t = hs
  /\ length (rows t) = length body
  /\ forall i row, body !! i = Some row ->
       exists rec, rows t !! i = Some rec
         /\ (forall j h, hs !! j = Some h ->
               is_Some (rec !! keyOf h j)
               /\ ((forall j' h', (j < j')%nat -> hs !! j' = Some h' ->
                      keyOf h' j' <> keyOf h j) ->
                   rec !! keyOf h j = Some (cellOr row j)))
         /\ (forall k v, rec !! k = Some v ->
               exists j h, hs !! j = Some h /\ keyOf h j = k /\ v = cellOr row j
                 /\ forall j' h', (j < j')%nat -> hs !! j' = Some h' ->
                      keyOf h' j' <> k).
Proof.
  intros hs Hsome Hproto.
  pose proof (hasHeaders_some_cell row0 Hsome) as Hhas.
  eexists. split; [now apply normalize_headers_branch|]. fold hs. simpl.
  split; [reflexivity|]. split; [apply List.length_map|].
  intros i row Hi. exists (rowWithHeaders hs row). split.
  - rewrite map_as_fmap, list_lookup_fmap, Hi. reflexivity.
  - assert (forall j h, hs !! j = Some h -> keyOf h j <> js "__proto__") as Hk.
    { intros j h Hj E. destruct h as [|u r].
      - now apply (colName_not_proto j).
      - simpl in E. apply Hproto. rewrite <- E.
        apply list_elem_of_lookup. now exists j. }
    split.
    + intros j h Hj. split.
      * apply rowWithHeaders_defined; [exact Hj | now apply (Hk j)].
      * intros Hlast. apply rowWithHeaders_field; [exact Hj | now apply (Hk j) | exact Hlast].
    + apply rowWithHeaders_defined.
Qed.

Lemma normalize_headers_fields_witness :
  exists t rec,
    normalize 125000 (js "T") [[js "Name"; js " "; js "Age"]; [js "Leo"]] = inr t
    /\ rows t !! 0%nat = Some rec
    /\ rec !! js "Name" = Some (js "Leo")
    /\ is_Some (rec !! js "Col2")
    /\ rec !! js "Age" = Some (js "").
Proof.
  destruct (normalize_headers_fields 125000 (js "T") [js "Name"; js " "; js "Age"]
              [[js "Leo"]])
    as (t & Ht & _ & _ & H).
  - apply Exists_cons_hd. discriminate.
  - intros Hin. apply list_elem_of_In in Hin. simpl in Hin.
    destruct Hin as [E|[E|[E|[]]]]; discriminate.
  - destruct (H 0%nat [js "Leo"] eq_refl) as (rec & Hrec & Hfield & _).
    exists t, rec. split; [exact Ht|]. split; [exact Hrec|]. split; [|split].
    + apply (Hfield 0%nat (js "Name") eq_refl).
      intros j' h' Hlt Hj'. destruct j' as [|[|[|j']]]; try lia.
      * injection Hj' as <-. discriminate.
      * injection Hj' as <-. discriminate.
      * discriminate.
    + apply (Hfield 1%nat [] eq_refl).
    + apply (Hfield 2%nat (js "Age") eq_refl).
      intros j' h' Hlt Hj'. destruct j' as [|[|[|j']]]; try lia. discriminate.
Defined.

(** C3 (as stated) fails when two columns have the same key: the field
    keyed by the header of position 0 then holds the cell of the later
    column, not [row[0]]. *)
Lemma normalize_headers_fields_counterexample :
  let row0 := [js "A"; js "A"] in
  let row := [js "1"; js "2"] in
  Exists (fun c => trim c <> []) row0
  /\ List.map trim row0 !! 0%nat = Some (js "A")
  /\ normalize 125000 (js "T") [row0; row]
     = inr {| tab := js "T"; headers := [js "A"; js "A"];
              rows := [ {[ js "A" := js "2" ]} ] |}
  /\ cellOr row 0 = js "1"
  /\ ({[ js "A" := js "2" ]} : gmap (list N) (list N)) !! keyOf (js "A") 0 = Some (js "2")
  /\ ({[ js "A" := js "2" ]} : gmap (list N) (list N)) !! keyOf (js "A") 0
     <> Some (cellOr row 0).
Proof.
  cbv zeta. split; [apply Exists_cons_hd; discriminate|].
  split; [reflexivity|]. split; [vm_compute; reflexivity|].
  split; [reflexivity|]. split.
  - vm_compute. reflexivity.
  - vm_compute. discriminate.
Qed.

(** A header named ["__proto__"]: the assignment
    [obj["__proto__"] = "x"] creates no property, so the record of the
    body row has no field for header position 0. *)
Lemma normalize_proto_header_dropped :
  let grid := [[js "__proto__"; js "Name"]; [js "x"; js "Ana"]] in
  hasHeaders (List.map trim [js "__proto__"; js "Name"]) = true
  /\ normalize 125000 (js "T") grid
     = inr {| tab := js "T"; headers := [js "__proto__"; js "Name"];
              rows := [ {[ js "Name" := js "Ana" ]} ] |}
  /\ ({[ js "Name" := js "Ana" ]} : gmap (list N) (list N))
       !! keyOf (js "__proto__") 0 = None
  /\ cellOr [js "x"; js "Ana"] 0 = js "x".
Proof.
  cbv zeta. split; [reflexivity|]. split; [|split].
  - vm_compute. reflexivity.
  - vm_compute. reflexivity.
  - reflexivity.
Qed.

(** C10 (as the code has it). In the branch with real headers, let a
    non-empty trimmed header name other than ["__proto__"] stand at
    position [j1], and let [j2 > j1] be the right-most column whose key
    is that name, the key of a column being its header or, for an empty
    header, the synthesized [Col(j+1)] (when the name heads two or more
    columns, [j2] is at or after the last of them). Then every record
    has one field under that name, holding [row[j2]] or the empty
    string, and has fewer fields than there are header positions. *)
Theorem normalize_duplicate_headers (argLimit : N) (tabName : jsstring)
    (row0 : list jsstring)
    (body : list (list jsstring)) (name h2 : jsstring) (j1 j2 : nat) :
  let hs := List.map trim row0 in
  name <> [] -> name <> js "__proto__" ->
  (j1 < j2)%nat -> hs !! j1 = Some name ->
  hs !! j2 = Some h2 -> keyOf h2 j2 = name ->
  (forall j' h', (j2 < j')%nat -> hs !! j' = Some h' -> keyOf h' j' <> name) ->
  hasHeaders hs = true
  /\ exists t, normalize argLimit tabName (row0 :: body) = inr t
       /\ forall i row, body !! i = Some row ->
            exists rec, rows t !! i = Some rec
              /\ rec !! name = Some (cellOr row j2)
              /\ (size rec < length hs)%nat.
Proof.
  intros hs Hne Hproto Hlt H1 H2 Hk2 Hlast.
  assert (hasHeaders hs = true) as Hhas by exact (hasHeaders_nonempty hs j1 name H1 Hne).
  split; [exact Hhas|].
  eexists. split; [now apply normalize_headers_branch|]. fold hs. simpl.
  intros i row Hi.
  exists (rowWithHeaders hs row). split.
  - rewrite map_as_fmap, list_lookup_fmap, Hi. reflexivity.
  - split.
    + rewrite <- Hk2. apply rowWithHeaders_field.
      * exact H2.
      * now rewrite Hk2.
      * intros j' h' Hlt' Hj'. rewrite Hk2. now apply Hlast.
    + unfold rowWithHeaders.
      apply (assign_size_duplicate keyOf (cellOr row) hs j1 j2 name h2); try assumption.
      rewrite Hk2. destruct name; [contradiction | reflexivity].
Qed.

Lemma normalize_duplicate_headers_witness :
  exists t rec,
    normalize 125000 (js "T") [[js "A"; js "B"; js "A "]; [js "1"; js "2"; js "3"]] = inr t
    /\ rows t !! 0%nat = Some rec
    /\ rec !! js "A" = Some (js "3") /\ (size rec < 3)%nat.
Proof.
  destruct (normalize_duplicate_headers 125000 (js "T") [js "A"; js "B"; js "A "]
              [[js "1"; js "2"; js "3"]] (js "A") (js "A") 0 2) as [_ (t & Ht & H)].
  - discriminate.
  - discriminate.
  - lia.
  - reflexivity.
  - reflexivity.
  - reflexivity.
  - intros j' h' Hlt Hj'.
    destruct j' as [|[|[|j']]]; try lia. discriminate.
  - destruct (H 0%nat [js "1"; js "2"; js "3"] eq_refl) as (rec & Hrec & Hval & Hsize).
    exists t, rec. repeat split; assumption.
Defined.

(** C10 (as stated) fails when a later column with an empty header
    synthesizes the duplicated name: with headers [Col3, Col3, (empty)]
    the right-most column headed [Col3] is position 1, yet the field
    [Col3] holds the value of position 2. *)
Lemma normalize_duplicate_headers_counterexample :
  let row0 := [js "Col3"; js "Col3"; js ""] in
  let row := [js "a"; js "b"; js "c"] in
  let hs := List.map trim row0 in
  hasHeaders hs = true
  /\ hs !! 0%nat = Some (js "Col3") /\ hs !! 1%nat = Some (js "Col3")
  /\ (forall j', (1 < j')%nat -> hs !! j' <> Some (js "Col3"))
  /\ normalize 125000 (js "T") [row0; row]
     = inr {| tab := js "T"; headers := hs; rows := [ {[ js "Col3" := js "c" ]} ] |}
  /\ cellOr row 1 = js "b"
  /\ ({[ js "Col3" := js "c" ]} : gmap (list N) (list N)) !! js "Col3" = Some (js "c")
  /\ ({[ js "Col3" := js "c" ]} : gmap (list N) (list N)) !! js "Col3"
     <> Some (cellOr row 1).
Proof.
  cbv zeta.
  split; [reflexivity|]. split; [reflexivity|]. split; [reflexivity|].
  split; [|split; [|split; [reflexivity|split]]].
  - intros j' Hlt. destruct j' as [|[|[|j']]]; try lia; discriminate.
  - vm_compute. reflexivity.
  - vm_compute. reflexivity.
  - vm_compute. discriminate.
Qed.

(** ** The key deriver *)

(** C6. [cacheKey] is a function of its ordered parts alone: equal
    lists of parts give equal keys, the keys of the two example lists
    are the fixed digests below, and they differ. *)
Theorem cacheKey_deterministic (parts1 parts2 : list jsstring) :
  parts1 = parts2 ->
  cacheKey parts1 = cacheKey parts2
  /\ cacheKey [js "data"; js "S1"; js "Tab A"] = js "4b7d1e34a21eab2141d959e9c7676feb"
  /\ cacheKey [js "data"; js "S1"; js "Tab B"] = js "2935a2c6aa17aadfd731989b6da9bbdb"
  /\ cacheKey [js "data"; js "S1"; js "Tab A"] <> cacheKey [js "data"; js "S1"; js "Tab B"].
Proof.
  intros ->. split; [reflexivity|]. split; [|split].
  - vm_compute. reflexivity.
  - vm_compute. reflexivity.
  - vm_compute. discriminate.
Qed.

Lemma cacheKey_deterministic_witness :
  cacheKey [js "tabs"; js "S1"] = cacheKey [js "tabs"; js "S" ++ js "1"].
Proof.
  apply (cacheKey_deterministic [js "tabs"; js "S1"] [js "tabs"; js "S" ++ js "1"]).
  reflexivity.
Defined.

(** ** The cache store *)

Lemma getCache_cases (key : jsstring) (w : world) :
  (cache w !! key = None /\ getCache key w = (inr None, w))
  \/ (exists it, cache w !! key = Some it /\ (clock w > expiresAt it)%Z
        /\ getCache key w
           = (inr None, {| cache := delete key (cache w); clock := clock w;
                           upstreamLog := upstreamLog w |}))
  \/ (exists it, cache w !! key = Some it /\ (clock w <= expiresAt it)%Z
        /\ getCache key w = (inr (Some (data it)), w)).
Proof.
  unfold getCache. destruct (cache w !! key) as [it|] eqn:E.
  - destruct (Z.gtb_spec (clock w) (expiresAt it)) as [Hgt|Hle].
    + right; left. exists it. repeat split. lia.
    + right; right. exists it. repeat split. lia.
  - left. now split.
Qed.

(** A miss leaves the clock and the log alone and the cache without an
    entry for the key: an absent key stays absent, an expired entry is
    deleted. *)
Lemma getCache_miss (key : jsstring) (w : world) :
  fst (getCache key w) = inr None ->
  snd (getCache key w)
  = {| cache := delete key (cache w); clock := clock w; upstreamLog := upstreamLog w |}.
Proof.
  intros H.
  destruct (getCache_cases key w) as [[E R] | [(it & E & Ht & R) | (it & E & Ht & R)]];
    rewrite R in *; simpl in *.
  - rewrite delete_id by assumption. now destruct w.
  - reflexivity.
  - discriminate.
Qed.

Lemma getCache_hit (key : jsstring) (w : world) (v : payload) :
  fst (getCache key w) = inr (Some v) ->
  getCache key w = (inr (Some v), w)
  /\ exists it, cache w !! key = Some it /\ (clock w <= expiresAt it)%Z /\ data it = v.
Proof.
  intros H.
  destruct (getCache_cases key w) as [[E R] | [(it & E & Ht & R) | (it & E & Ht & R)]];
    rewrite R in *; simpl in *; try discriminate.
  injection H as <-. split; [reflexivity|]. now exists it.
Qed.

Lemma getCache_absent (key : jsstring) (w : world) :
  cache w !! key = None -> getCache key w = (inr None, w).
Proof. intros E. unfold getCache. now rewrite E. Qed.

Lemma getCache_live (key : jsstring) (w : world) (it : item) :
  cache w !! key = Some it -> (clock w <= expiresAt it)%Z ->
  getCache key w = (inr (Some (data it)), w).
Proof.
  intros E Hle. unfold getCache. rewrite E.
  destruct (Z.gtb_spec (clock w) (expiresAt it)); [lia | reflexivity].
Qed.

Lemma getCache_dead (key : jsstring) (w : world) (it : item) :
  cache w !! key = Some it -> (expiresAt it < clock w)%Z ->
  fst (getCache key w) = inr None.
Proof.
  intros E Hlt. unfold getCache. rewrite E.
  destruct (Z.gtb_spec (clock w) (expiresAt it)); [reflexivity | lia].
Qed.

(** C2. For a key with a stored entry: read after its expiry,
    [getCache] answers absent and deletes the entry; read at or before
    its expiry, it answers the stored value and leaves the whole world,
    the entry's expiry included, as it was. Whatever [getCache] returns
    is the value of an entry that has not expired. *)
Theorem getCache_expiry (key : jsstring) (w : world) (it : item) :
  cache w !! key = Some it ->
  ((clock w > expiresAt it)%Z ->
     fst (getCache key w) = inr None
     /\ cache (snd (getCache key w)) = delete key (cache w)
     /\ cache (snd (getCache key w)) !! key = None)
  /\ ((clock w <= expiresAt it)%Z ->
        getCache key w = (inr (Some (data it)), w)
        /\ cache (snd (getCache key w)) !! key = Some it)
  /\ (forall v, fst (getCache key w) = inr (Some v) ->
        (clock w <= expiresAt it)%Z /\ v = data it).
Proof.
  intros E. split; [|split].
  - intros Hgt.
    destruct (getCache_cases key w) as [[E' R] | [(it' & E' & Ht & R) | (it' & E' & Ht & R)]];
      rewrite R; simpl.
    + congruence.
    + repeat split. apply lookup_delete_eq.
    + assert (it' = it) as -> by congruence. lia.
  - intros Hle.
    destruct (getCache_cases key w) as [[E' R] | [(it' & E' & Ht & R) | (it' & E' & Ht & R)]];
      rewrite R; simpl.
    + congruence.
    + assert (it' = it) as -> by congruence. lia.
    + assert (it' = it) as -> by congruence. now split.
  - intros v Hv. apply getCache_hit in Hv as (_ & it' & E' & Ht & Hd).
    assert (it' = it) as -> by congruence. now split.
Qed.

Lemma getCache_expiry_witness :
  let stored := {| expiresAt := 100; data := Tabs [js "A"] |} in
  let w := {| cache := {[ js "k" := stored ]}; clock := 100; upstreamLog := [] |} in
  getCache (js "k") w = (inr (Some (Tabs [js "A"])), w)
  /\ fst (getCache (js "k") (at_time 101 w)) = inr None.
Proof.
  cbv zeta.
  set (stored := {| expiresAt := 100; data := Tabs [js "A"] |}).
  set (w := {| cache := {[ js "k" := stored ]}; clock := 100; upstreamLog := [] |}).
  split.
  - apply (getCache_expiry (js "k") w stored); [reflexivity | simpl; lia].
  - apply (getCache_expiry (js "k") (at_time 101 w) stored); [reflexivity | simpl; lia].
Defined.

(** C7. [setCache] never fails and puts under the key the entry with
    the given value and expiry [now + ttl], whatever was stored there
    before, leaving other keys alone; a [getCache] of that key in a
    later world that still holds this entry, with the clock not past the
    expiry, returns the new value. *)
Theorem setCache_overwrites (key : jsstring) (d : payload) (ttl : Z) (w w2 : world) :
  let w1 := snd (setCache key d ttl w) in
  cache w2 !! key = cache w1 !! key ->
  (clock w2 <= clock w + ttl)%Z ->
  fst (setCache key d ttl w) = inr tt
  /\ cache w1 !! key = Some {| expiresAt := clock w + ttl; data := d |}
  /\ (forall k, k <> key -> cache w1 !! k = cache w !! k)
  /\ getCache key w2 = (inr (Some d), w2).
Proof.
  intros w1 Hsame Hle. subst w1. simpl in *.
  rewrite lookup_insert_eq in Hsame.
  split; [reflexivity|]. split; [apply lookup_insert_eq|]. split.
  - intros k Hk. now apply lookup_insert_ne.
  - apply (getCache_live key w2 _ Hsame). simpl. exact Hle.
Qed.

Lemma setCache_overwrites_witness :
  let old := {| expiresAt := 5; data := Tabs [js "old"] |} in
  let w := {| cache := {[ js "k" := old ]}; clock := 10; upstreamLog := [] |} in
  let w1 := snd (setCache (js "k") (Tabs [js "new"]) 300000 w) in
  getCache (js "k") (at_time 300010 w1) = (inr (Some (Tabs [js "new"])), at_time 300010 w1).
Proof.
  cbv zeta.
  apply (setCache_overwrites (js "k") (Tabs [js "new"]) 300000
           {| cache := {[ js "k" := {| expiresAt := 5; data := Tabs [js "old"] |} ]};
              clock := 10; upstreamLog := [] |}).
  - reflexivity.
  - simpl. lia.
Defined.

(** ** The loader *)

(** The two upstream round trips never touch the cache. A grid fetch
    that succeeds has logged the client call and one [values.get]. *)
Lemma fetchGrid_cache (e : env) (tabName : jsstring) (w : world) :
  cache (snd (fetchGrid e tabName w)) = cache w.
Proof.
  unfold fetchGrid, bind, await. simpl.
  destruct (outcome (getSheetsApi (sheets e) (upstreamLog w) (clock w))); reflexivity.
Qed.

Lemma fetchTabTitles_cache (e : env) (w : world) :
  cache (snd (fetchTabTitles e w)) = cache w.
Proof.
  unfold fetchTabTitles, bind, await. simpl.
  destruct (outcome (getSheetsApi (sheets e) (upstreamLog w) (clock w))); reflexivity.
Qed.

Lemma fetchTabTitles_gridFetches (e : env) (w : world) :
  gridFetches (upstreamLog (snd (fetchTabTitles e w))) = gridFetches (upstreamLog w).
Proof.
  unfold fetchTabTitles, bind, await. simpl.
  destruct (outcome (getSheetsApi (sheets e) (upstreamLog w) (clock w))); reflexivity.
Qed.


Lemma fetchGrid_ok (e : env) (tabName : jsstring) (w : world)
    (values : option (list (list jsstring))) :
  fst (fetchGrid e tabName w) = inr values ->
  upstreamLog (snd (fetchGrid e tabName w))
  = ValuesGet (rangeOf tabName) :: GetClient :: upstreamLog w.
Proof.
  unfold fetchGrid, bind, await. simpl.
  destruct (outcome (getSheetsApi (sheets e) (upstreamLog w) (clock w))) as [err|[]];
    simpl; [discriminate | reflexivity].
Qed.

(** [readSheetToJson] on a hit and on a miss. *)
Lemma readSheetToJson_hit (e : env) (tabName : jsstring) (w : world) (v : payload) :
  fst (getCache (cacheKey [js "data"; sheetIdPart e; tabName]) w) = inr (Some v) ->
  readSheetToJson e tabName w = (inr v, w).
Proof.
  intros H. apply getCache_hit in H as [R _].
  unfold readSheetToJson, bind. rewrite R. reflexivity.
Qed.

Lemma readSheetToJson_miss (e : env) (tabName : jsstring) (w : world) :
  let key := cacheKey [js "data"; sheetIdPart e; tabName] in
  let wm := {| cache := delete key (cache w); clock := clock w;
               upstreamLog := upstreamLog w |} in
  fst (getCache key w) = inr None ->
  readSheetToJson e tabName w
  = match fetchGrid e tabName wm with
    | (inl err, wf) => (inl err, wf)
    | (inr values, wf) =>
        match normalize (argumentLimit e) tabName (default [] values) with
        | inl err => (inl err, wf)
        | inr t => (inr (Sheet t), snd (setCache key (Sheet t) (CACHE_TTL_MS e) wf))
        end
    end.
Proof.
  intros key wm H. pose proof (getCache_miss key w H) as Hw.
  unfold readSheetToJson. fold key. unfold bind at 1.
  destruct (getCache key w) as [r w'] eqn:R. simpl in H, Hw. subst r w'.
  fold wm. unfold bind at 1.
  destruct (fetchGrid e tabName wm) as [[err|values] wf]; [reflexivity|].
  unfold bind at 1, liftResult.
  destruct (normalize (argumentLimit e) tabName (default [] values)); reflexivity.
Qed.

Lemma listSheetTabs_hit (e : env) (w : world) (v : payload) :
  fst (getCache (cacheKey [js "tabs"; sheetIdPart e]) w) = inr (Some v) ->
  listSheetTabs e w = (inr v, w).
Proof.
  intros H. apply getCache_hit in H as [R _].
  unfold listSheetTabs, bind. rewrite R. reflexivity.
Qed.

Lemma listSheetTabs_miss (e : env) (w : world) :
  let key := cacheKey [js "tabs"; sheetIdPart e] in
  let wm := {| cache := delete key (cache w); clock := clock w;
               upstreamLog := upstreamLog w |} in
  fst (getCache key w) = inr None ->
  listSheetTabs e w
  = match fetchTabTitles e wm with
    | (inl err, wf) => (inl err, wf)
    | (inr meta, wf) =>
        (inr (Tabs (tabTitles meta)),
         snd (setCache key (Tabs (tabTitles meta)) (CACHE_TTL_MS e) wf))
    end.
Proof.
  intros key wm H. pose proof (getCache_miss key w H) as Hw.
  unfold listSheetTabs. fold key. unfold bind at 1.
  destruct (getCache key w) as [r w'] eqn:R. simpl in H, Hw. subst r w'.
  fold wm. unfold bind at 1.
  destruct (fetchTabTitles e wm) as [[err|meta] wf]; reflexivity.
Qed.

Lemma getCache_fst (key : jsstring) (w : world) :
  exists r, fst (getCache key w) = inr r.
Proof.
  destruct (getCache_cases key w) as [[_ R] | [(it & _ & _ & R) | (it & _ & _ & R)]];
    rewrite R; simpl; eauto.
Qed.

(** [listSheetTabs] never asks for a grid. *)
Lemma listSheetTabs_gridFetches (e : env) (w : world) :
  gridFetches (upstreamLog (snd (listSheetTabs e w))) = gridFetches (upstreamLog w).
Proof.
  destruct (getCache_fst (cacheKey [js "tabs"; sheetIdPart e]) w) as [[v|] H].
  - now rewrite (listSheetTabs_hit e w v H).
  - rewrite (listSheetTabs_miss e w H).
    match goal with |- context [fetchTabTitles e ?wm] =>
      pose proof (fetchTabTitles_gridFetches e wm) as G;
      destruct (fetchTabTitles e wm) as [[err|meta] wf] end;
    simpl in *; exact G.
Qed.

(** C8. Normalising the empty grid gives the table with the requested
    tab name, no headers and no rows; and when a fetch after a miss
    brings no rows ([values] empty or undefined), that table is what
    [readSheetToJson] returns and caches. *)
Theorem normalize_empty_grid (e : env) (tabName : jsstring) (w : world)
    (values : option (list (list jsstring))) :
  let key := cacheKey [js "data"; sheetIdPart e; tabName] in
  let empty := {| tab := tabName; headers := []; rows := [] |} in
  (forall argLimit, normalize argLimit tabName [] = inr empty)
  /\ (forall argLimit,
        normalize argLimit (js "Sheet1") []
        = inr {| tab := js "Sheet1"; headers := []; rows := [] |})
  /\ (fst (getCache key w) = inr None ->
      fst (fetchGrid e tabName (snd (getCache key w))) = inr values ->
      default [] values = [] ->
      fst (readSheetToJson e tabName w) = inr (Sheet empty)
      /\ data <$> cache (snd (readSheetToJson e tabName w)) !! key = Some (Sheet empty)).
Proof.
  intros key empty. split; [reflexivity|]. split; [reflexivity|].
  intros Hmiss Hok Hnil.
  rewrite (getCache_miss key w Hmiss) in Hok.
  rewrite (readSheetToJson_miss e tabName w Hmiss). fold key.
  match type of Hok with context [fetchGrid e tabName ?wm] =>
    destruct (fetchGrid e tabName wm) as [[err|values'] wf] end;
    simpl in Hok; [discriminate|].
  injection Hok as ->. rewrite Hnil. simpl. split; [reflexivity|].
  now rewrite lookup_insert_eq.
Qed.

Lemma normalize_empty_grid_witness :
  let e := {| SHEET_ID := Some (js "S1"); CACHE_TTL_MS := 300000;
              sheets := upstream_fixed 5 [js "Sheet1"] (fun _ => []);
              argumentLimit := 125000 |} in
  let w := {| cache := ∅; clock := 0; upstreamLog := [] |} in
  fst (readSheetToJson e (js "Sheet1") w)
  = inr (Sheet {| tab := js "Sheet1"; headers := []; rows := [] |}).
Proof.
  cbv zeta.
  set (e := {| SHEET_ID := Some (js "S1"); CACHE_TTL_MS := 300000;
               sheets := upstream_fixed 5 [js "Sheet1"] (fun _ => []);
               argumentLimit := 125000 |}).
  set (w := {| cache := ∅; clock := 0; upstreamLog := [] |}).
  destruct (normalize_empty_grid e (js "Sheet1") w (Some [])) as (_ & _ & H).
  apply H.
  - vm_compute. reflexivity.
  - vm_compute. reflexivity.
  - reflexivity.
Defined.

(** C4 (as the code has it). When the lookup misses and the upstream
    call of [listSheetTabs] or [readSheetToJson] is rejected, the
    rejection reaches the caller unchanged and no entry is created or
    overwritten: the cache afterwards is the cache before without the
    derived key, which differs from the cache before only when an
    expired entry was stored under that key (the lookup deleted it). *)
Theorem upstream_failure_cache (e : env) (w : world) :
  (forall err,
     let key := cacheKey [js "tabs"; sheetIdPart e] in
     let after := snd (listSheetTabs e w) in
     fst (getCache key w) = inr None ->
     fst (fetchTabTitles e (snd (getCache key w))) = inl err ->
     fst (listSheetTabs e w) = inl err
     /\ cache after = delete key (cache w)
     /\ (cache w !! key = None -> cache after = cache w)
     /\ (forall k it, cache after !! k = Some it -> cache w !! k = Some it))
  /\ (forall tabName err,
        let key := cacheKey [js "data"; sheetIdPart e; tabName] in
        let after := snd (readSheetToJson e tabName w) in
        fst (getCache key w) = inr None ->
        fst (fetchGrid e tabName (snd (getCache key w))) = inl err ->
        fst (readSheetToJson e tabName w) = inl err
        /\ cache after = delete key (cache w)
        /\ (cache w !! key = None -> cache after = cache w)
        /\ (forall k it, cache after !! k = Some it -> cache w !! k = Some it)).
Proof.
  split.
  - intros err key after Hmiss Hfail. subst after.
    rewrite (getCache_miss key w Hmiss) in Hfail.
    rewrite (listSheetTabs_miss e w Hmiss). fold key.
    match type of Hfail with context [fetchTabTitles e ?wm] =>
      pose proof (fetchTabTitles_cache e wm) as Hc;
      destruct (fetchTabTitles e wm) as [[err'|meta] wf] end;
    simpl in *; [|discriminate].
    injection Hfail as ->. split; [reflexivity|]. split; [exact Hc|]. split.
    + intros Hnone. rewrite Hc. now apply delete_id.
    + intros k it. rewrite Hc. intros Hk.
      apply lookup_delete_Some in Hk. tauto.
  - intros tabName err key after Hmiss Hfail. subst after.
    rewrite (getCache_miss key w Hmiss) in Hfail.
    rewrite (readSheetToJson_miss e tabName w Hmiss). fold key.
    match type of Hfail with context [fetchGrid e tabName ?wm] =>
      pose proof (fetchGrid_cache e tabName wm) as Hc;
      destruct (fetchGrid e tabName wm) as [[err'|values] wf] end;
    simpl in *; [|discriminate].
    injection Hfail as ->. split; [reflexivity|]. split; [exact Hc|]. split.
    + intros Hnone. rewrite Hc. now apply delete_id.
    + intros k it. rewrite Hc. intros Hk.
      apply lookup_delete_Some in Hk. tauto.
Qed.

Lemma upstream_failure_cache_witness :
  let e := {| SHEET_ID := Some (js "S1"); CACHE_TTL_MS := 300000;
              sheets := upstream_down (js "quota");
              argumentLimit := 125000 |} in
  let w := {| cache := ∅; clock := 20; upstreamLog := [] |} in
  (fst (listSheetTabs e w) = inl (UpstreamUnavailable (js "quota"))
   /\ cache (snd (listSheetTabs e w)) = cache w)
  /\ (fst (readSheetToJson e (js "Hoja 1") w) = inl (UpstreamUnavailable (js "quota"))
      /\ cache (snd (readSheetToJson e (js "Hoja 1") w)) = cache w).
Proof.
  cbv zeta.
  set (e := {| SHEET_ID := Some (js "S1"); CACHE_TTL_MS := 300000;
               sheets := upstream_down (js "quota");
               argumentLimit := 125000 |}).
  set (w := {| cache := ∅; clock := 20; upstreamLog := [] |}).
  destruct (upstream_failure_cache e w) as [Htabs Hdata].
  split.
  - destruct (Htabs (UpstreamUnavailable (js "quota"))) as (Hr & _ & Hc & _);
      [vm_compute; reflexivity | vm_compute; reflexivity |].
    split; [exact Hr | apply Hc; vm_compute; reflexivity].
  - destruct (Hdata (js "Hoja 1") (UpstreamUnavailable (js "quota"))) as (Hr & _ & Hc & _);
      [vm_compute; reflexivity | vm_compute; reflexivity |].
    split; [exact Hr | apply Hc; vm_compute; reflexivity].
Defined.

(** C4 (as stated) fails when an expired entry is stored under the
    derived key: the failed call leaves the cache without that entry. *)
Lemma upstream_failure_cache_counterexample :
  let e := {| SHEET_ID := Some (js "S1"); CACHE_TTL_MS := 300000;
              sheets := upstream_down (js "quota");
              argumentLimit := 125000 |} in
  let key := cacheKey [js "data"; js "S1"; js "Hoja 1"] in
  let stale := {| expiresAt := 10;
                  data := Sheet {| tab := js "Hoja 1"; headers := []; rows := [] |} |} in
  let w := {| cache := {[ key := stale ]}; clock := 20; upstreamLog := [] |} in
  fst (readSheetToJson e (js "Hoja 1") w) = inl (UpstreamUnavailable (js "quota"))
  /\ cache w !! key = Some stale
  /\ cache (snd (readSheetToJson e (js "Hoja 1") w)) !! key = None
  /\ cache (snd (readSheetToJson e (js "Hoja 1") w)) <> cache w.
Proof.
  cbv zeta. split; [vm_compute; reflexivity|].
  split; [vm_compute; reflexivity|].
  split; [vm_compute; reflexivity|].
  intros Heq.
  apply (f_equal (fun m => m !! cacheKey [js "data"; js "S1"; js "Hoja 1"])) in Heq.
  vm_compute in Heq. discriminate.
Qed.

(** Whatever its outcome, a grid fetch contacts the upstream. *)
Lemma fetchGrid_contacts (e : env) (tabName : jsstring) (w : world) :
  exists pre, upstreamLog (snd (fetchGrid e tabName w)) = pre ++ GetClient :: upstreamLog w.
Proof.
  unfold fetchGrid, bind, await. simpl.
  destruct (outcome (getSheetsApi (sheets e) (upstreamLog w) (clock w))) as [err|[]]; simpl.
  - now exists [].
  - now exists [ValuesGet (rangeOf tabName)].
Qed.



(** ** The data route *)

(** C9. With [SHEET_ID] configured, when [listSheetTabs] answers a tab
    list that does not contain the requested tab, the route answers 404
    and stops in the world [listSheetTabs] left: [readSheetToJson] is
    not run and no grid fetch has been made. *)
Theorem api_data_tab_not_found (e : env) (tab : jsstring) (w w1 : world)
    (tabs : list jsstring) :
  sheetIdMissing e = false ->
  listSheetTabs e w = (inr (Tabs tabs), w1) ->
  tab ∉ tabs ->
  api_data e tab w = (notFound tab tabs, w1)
  /\ status (fst (api_data e tab w)) = 404
  /\ gridFetches (upstreamLog (snd (api_data e tab w))) = gridFetches (upstreamLog w).
Proof.
  intros Hsid Hlist Hnot.
  assert (api_data e tab w = (notFound tab tabs, w1)) as R.
  { unfold api_data. rewrite Hsid, Hlist.
    now rewrite bool_decide_eq_false_2. }
  rewrite R. simpl. repeat split.
  pose proof (listSheetTabs_gridFetches e w) as G.
  now rewrite Hlist in G.
Qed.

Lemma api_data_tab_not_found_witness :
  let e := {| SHEET_ID := Some (js "S1"); CACHE_TTL_MS := 300000;
              sheets := upstream_fixed 5 [js "Hoja 1"; js "Hoja 2"] (fun _ => []);
              argumentLimit := 125000 |} in
  let w := {| cache := ∅; clock := 0; upstreamLog := [] |} in
  status (fst (api_data e (js "Hoja 3") w)) = 404
  /\ gridFetches (upstreamLog (snd (api_data e (js "Hoja 3") w))) = 0%nat.
Proof.
  cbv zeta.
  set (e := {| SHEET_ID := Some (js "S1"); CACHE_TTL_MS := 300000;
               sheets := upstream_fixed 5 [js "Hoja 1"; js "Hoja 2"] (fun _ => []);
               argumentLimit := 125000 |}).
  set (w := {| cache := ∅; clock := 0; upstreamLog := [] |}).
  destruct (api_data_tab_not_found e (js "Hoja 3") w (snd (listSheetTabs e w))
              [js "Hoja 1"; js "Hoja 2"]) as (_ & Hs & Hg).
  - reflexivity.
  - vm_compute. reflexivity.
  - intros Hin. apply list_elem_of_In in Hin. simpl in Hin.
    destruct Hin as [H|[H|[]]]; discriminate.
  - split; assumption.
Defined.

(** * Further properties of the code *)

#[local] Set Warnings "-clear-no-such-hyp".

(** ** Cache store *)

(** [getCache] never throws, never moves the clock, never calls the
    upstream, and never creates or changes an entry: the only thing it
    may do to the cache is drop the entry of the key it was asked for. *)
Theorem getCache_frame (key : jsstring) (w : world) :
  let w' := snd (getCache key w) in
  (exists r, fst (getCache key w) = inr r)
  /\ clock w' = clock w
  /\ upstreamLog w' = upstreamLog w
  /\ (forall k, k <> key -> cache w' !! k = cache w !! k)
  /\ (forall k it, cache w' !! k = Some it -> cache w !! k = Some it).
Proof.
  cbv zeta.
  destruct (getCache_cases key w) as [[E R] | [(it & E & Ht & R) | (it & E & Ht & R)]];
    rewrite R; simpl; (split; [eauto|]); repeat split; auto.
  - intros k Hk. now apply lookup_delete_ne.
  - intros k it' Hk. apply lookup_delete_Some in Hk. tauto.
Qed.

(** Asking twice in a row changes nothing more: the second [getCache]
    gives the same answer and leaves the world of the first. *)
Theorem getCache_idempotent (key : jsstring) (w : world) :
  getCache key (snd (getCache key w)) = getCache key w.
Proof.
  destruct (getCache_cases key w) as [[E R] | [(it & E & Ht & R) | (it & E & Ht & R)]];
    rewrite R; simpl.
  - exact R.
  - unfold getCache. simpl. now rewrite lookup_delete_eq.
  - exact R.
Qed.

(** The life of an entry is exactly [now + ttl], bounds included: after
    [setCache], and whatever was stored or set under the key before, a
    [getCache] at time [t] returns the value if and only if
    [t <= now + ttl]. With a zero TTL the entry is served only within
    the millisecond of the write, with a negative one never. *)
Theorem setCache_getCache_boundary (key : jsstring) (d0 d : payload) (ttl0 ttl : Z)
    (w : world) (t : Z) :
  let w1 := snd (setCache key d ttl (snd (setCache key d0 ttl0 w))) in
  (fst (getCache key (at_time t w1)) = inr (Some d) <-> (t <= clock w + ttl)%Z)
  /\ (fst (getCache key (at_time t w1)) = inr None <-> (clock w + ttl < t)%Z)
  /\ w1 = snd (setCache key d ttl w).
Proof.
  cbv zeta. unfold getCache, setCache, at_time. simpl.
  rewrite lookup_insert_eq. simpl.
  destruct (Z.gtb_spec t (clock w + ttl)) as [Hgt|Hle]; simpl.
  - split; [|split].
    + split; [discriminate | lia].
    + split; [lia | reflexivity].
    + now rewrite insert_insert_eq.
  - split; [|split].
    + split; [lia | reflexivity].
    + split; [discriminate | lia].
    + now rewrite insert_insert_eq.
Qed.

(** ** Key deriver *)

Lemma le_bytes_length (n : nat) (x : N) : length (MD5.le_bytes n x) = n.
Proof. revert x. induction n as [|n IH]; intros x; simpl; [reflexivity|]. now rewrite IH. Qed.

Lemma le_bytes_bound (n : nat) (x : N) : Forall (fun b => b < 256) (MD5.le_bytes n x).
Proof.
  revert x. induction n as [|n IH]; intros x; simpl; constructor.
  - now apply N.mod_lt.
  - apply IH.
Qed.

Lemma digest_bytes (msg : list N) :
  length (MD5.digest msg) = 16%nat /\ Forall (fun b => b < 256) (MD5.digest msg).
Proof.
  unfold MD5.digest.
  destruct (fold_left MD5.compress _ MD5.init) as [[[a b] c] d].
  split.
  - rewrite !length_app, !le_bytes_length. reflexivity.
  - repeat (apply Forall_app; split); apply le_bytes_bound.
Qed.

Lemma hexDigit_ok (d : N) : d < 16 -> isHexDigit (hexDigit d).
Proof.
  intros H. unfold isHexDigit, hexDigit.
  destruct (N.ltb_spec d 10); lia.
Qed.

Lemma hex_digits (bytes : list N) :
  Forall (fun b => b < 256) bytes ->
  length (hex bytes) = (2 * length bytes)%nat /\ Forall isHexDigit (hex bytes).
Proof.
  unfold hex. induction 1 as [|b bytes Hb _ [IHl IHd]]; simpl.
  - split; [reflexivity | constructor].
  - split; [lia|].
    constructor; [|constructor; [|exact IHd]]; apply hexDigit_ok.
    + apply N.Div0.div_lt_upper_bound. lia.
    + now apply N.mod_lt.
Qed.

(** Every cache key is a string of exactly 32 lower-case hexadecimal
    digits, whatever the parts are (empty list, empty strings, text of
    any length or script). *)
Theorem cacheKey_hex32 (parts : list jsstring) :
  length (cacheKey parts) = 32%nat /\ Forall isHexDigit (cacheKey parts).
Proof.
  unfold cacheKey.
  destruct (digest_bytes (utf8 (join (js "|") parts))) as [Hl Hb].
  destruct (hex_digits _ Hb) as [Hl' Hd].
  split; [now rewrite Hl', Hl | exact Hd].
Qed.

Lemma join_merge (sep p q : jsstring) (rest : list jsstring) :
  join sep ((p ++ sep ++ q) :: rest) = join sep (p :: q :: rest).
Proof.
  destruct rest as [|r rest]; simpl.
  - reflexivity.
  - now rewrite <- !app_assoc.
Qed.

Lemma join_cons (sep x y : jsstring) (l : list jsstring) :
  join sep (x :: y :: l) = x ++ sep ++ join sep (y :: l).
Proof. reflexivity. Qed.

Lemma join_merge_at (sep p q : jsstring) (before rest : list jsstring) :
  join sep (before ++ (p ++ sep ++ q) :: rest) = join sep (before ++ p :: q :: rest).
Proof.
  induction before as [|x before IH].
  - apply join_merge.
  - destruct before as [|y before].
    + simpl app. rewrite !join_cons. now rewrite join_merge.
    + change ((x :: y :: before) ++ (p ++ sep ++ q) :: rest)
        with (x :: y :: (before ++ (p ++ sep ++ q) :: rest)).
      change ((x :: y :: before) ++ p :: q :: rest)
        with (x :: y :: (before ++ p :: q :: rest)).
      rewrite !join_cons. f_equal. f_equal. exact IH.
Qed.

(** The parts are joined with ["|"] before hashing and nothing escapes
    a ["|"] inside a part: a part that contains the separator, at any
    position of the list, gives the key of the list in which that part
    is split in two. So ["data"; "S"; "a|b"] and ["data"; "S|a"; "b"]
    have one key. *)
Theorem cacheKey_separator_collision (before : list jsstring) (p q : jsstring)
    (rest : list jsstring) :
  cacheKey (before ++ (p ++ js "|" ++ q) :: rest) = cacheKey (before ++ p :: q :: rest)
  /\ cacheKey [js "data"; p; q ++ js "|" ++ js "b"]
     = cacheKey [js "data"; p ++ js "|" ++ q; js "b"].
Proof.
  split.
  - unfold cacheKey. now rewrite join_merge_at.
  - unfold cacheKey. f_equal. f_equal. simpl. now rewrite <- !app_assoc.
Qed.

(** Under one [SHEET_ID] the strings that are hashed never coincide:
    the one of the tab list differs from the one of every tab, and two
    tabs have the same one only if they have the same name. *)
Theorem hashed_strings_distinct (e : env) (tab1 tab2 : jsstring) :
  join (js "|") [js "tabs"; sheetIdPart e] <> join (js "|") [js "data"; sheetIdPart e; tab1]
  /\ (join (js "|") [js "data"; sheetIdPart e; tab1]
      = join (js "|") [js "data"; sheetIdPart e; tab2] -> tab1 = tab2).
Proof.
  split.
  - simpl. discriminate.
  - simpl. intros H. injection H as H.
    apply app_inv_head in H. injection H as H. exact H.
Qed.

Lemma hashed_strings_distinct_witness : js "Tab A" = js "Tab " ++ js "A".
Proof.
  apply (hashed_strings_distinct
           {| SHEET_ID := Some (js "S1"); CACHE_TTL_MS := 0;
              sheets := upstream_down [];
              argumentLimit := 125000 |} (js "Tab A") (js "Tab " ++ js "A")).
  reflexivity.
Defined.

(** ** Trimming *)

Lemma trimStart_head (s : jsstring) :
  trimStart s = [] \/ exists u r, trimStart s = u :: r /\ isWhiteSpace u = false.
Proof.
  induction s as [|u r IH]; simpl; [now left|].
  destruct (isWhiteSpace u) eqn:E; [exact IH|].
  right. now exists u, r.
Qed.

Lemma trimStart_fixed (u : N) (r : jsstring) :
  isWhiteSpace u = false -> trimStart (u :: r) = u :: r.
Proof. intros E. simpl. now rewrite E. Qed.

Lemma trimStart_nil (s : jsstring) :
  trimStart s = [] <-> forallb isWhiteSpace s = true.
Proof.
  induction s as [|u r IH]; simpl; [tauto|].
  destruct (isWhiteSpace u); simpl; [exact IH|].
  split; discriminate.
Qed.

Lemma trimEnd_nil (s : jsstring) :
  trimEnd s = [] <-> forallb isWhiteSpace s = true.
Proof.
  induction s as [|u r IH]; simpl; [tauto|].
  destruct (trimEnd r) as [|v r'] eqn:E.
  - destruct (isWhiteSpace u); simpl.
    + split; [intros _; now apply IH | reflexivity].
    + split; discriminate.
  - split; [discriminate|]. intros H.
    apply andb_true_iff in H as [_ H]. apply IH in H. discriminate.
Qed.

Lemma trimEnd_idem (s : jsstring) : trimEnd (trimEnd s) = trimEnd s.
Proof.
  induction s as [|u r IH]; simpl; [reflexivity|].
  destruct (trimEnd r) as [|v r'] eqn:E.
  - destruct (isWhiteSpace u) eqn:W; simpl; [reflexivity|]. now rewrite W.
  - change (trimEnd (u :: v :: r')) with
      (match trimEnd (v :: r') with
       | [] => if isWhiteSpace u then [] else [u]
       | x :: y => u :: x :: y
       end).
    now rewrite IH.
Qed.

Lemma trimEnd_keeps_head (u : N) (r : jsstring) :
  isWhiteSpace u = false -> exists r', trimEnd (u :: r) = u :: r'.
Proof.
  intros E. simpl. destruct (trimEnd r) as [|v r'].
  - rewrite E. now exists [].
  - now exists (v :: r').
Qed.

Lemma trimEnd_last (s : jsstring) (u : N) :
  last (trimEnd s) = Some u -> isWhiteSpace u = false.
Proof.
  induction s as [|v r IH]; simpl; [discriminate|].
  destruct (trimEnd r) as [|x r'] eqn:E.
  - destruct (isWhiteSpace v) eqn:W; simpl; [discriminate|].
    intros H. injection H as <-. exact W.
  - intros H. apply IH.
    now rewrite last_cons_cons in H.
Qed.

(** [trim] removes all white space and line terminators at both ends
    and nothing else is left to remove: the result neither begins nor
    ends with such a code unit, trimming it again changes nothing, and
    it is empty exactly when the string holds nothing else. *)
Lemma trim_spec (s : jsstring) :
  trim (trim s) = trim s
  /\ (forall u, head (trim s) = Some u -> isWhiteSpace u = false)
  /\ (forall u, last (trim s) = Some u -> isWhiteSpace u = false)
  /\ (trim s = [] <-> forallb isWhiteSpace s = true).
Proof.
  unfold trim.
  assert (trimStart (trimEnd (trimStart s)) = trimEnd (trimStart s)
          /\ forall u, head (trimEnd (trimStart s)) = Some u -> isWhiteSpace u = false)
    as [Hfix Hhead].
  { destruct (trimStart_head s) as [E | (u & r & E & W)]; rewrite E.
    - split; [reflexivity | discriminate].
    - destruct (trimEnd_keeps_head u r W) as [r' E']. rewrite E'. split.
      + now apply trimStart_fixed.
      + simpl. intros u' H. now injection H as <-. }
  split; [|split; [|split]].
  - rewrite Hfix. apply trimEnd_idem.
  - exact Hhead.
  - apply trimEnd_last.
  - rewrite trimEnd_nil.
    destruct (trimStart_head s) as [E | (u & r & E & W)].
    + rewrite E. simpl. apply trimStart_nil in E. tauto.
    + rewrite E. simpl. rewrite W. simpl. split; [discriminate|].
      intros H. apply trimStart_nil in H. congruence.
Qed.

(** ** More on the normaliser *)

Lemma forEach_from_ext {A St : Type} (f g : A -> nat -> St -> St)
    (arr : list A) (n : nat) (s : St) :
  (forall j x, arr !! j = Some x -> forall s', f x (n + j)%nat s' = g x (n + j)%nat s') ->
  forEach_from f n arr s = forEach_from g n arr s.
Proof.
  revert n s. induction arr as [|x arr IH]; intros n s H; simpl; [reflexivity|].
  pose proof (H 0%nat x eq_refl s) as H0. rewrite Nat.add_0_r in H0. rewrite H0.
  apply IH. intros j y Hj s'.
  replace (S n + j)%nat with (n + S j)%nat by lia. now apply (H (S j)).
Qed.

Lemma obj_set_dom (k v v' : jsstring) (o o' : jsobj) :
  dom o = dom o' -> dom (obj_set k v o) = dom (obj_set k v' o').
Proof.
  intros H. unfold obj_set. case_decide; [exact H|].
  rewrite !dom_insert_L. now rewrite H.
Qed.

Lemma forEach_obj_set_dom (kf : jsstring -> nat -> jsstring) (vf vf' : nat -> jsstring)
    (hs : list jsstring) (n : nat) (o o' : jsobj) :
  dom o = dom o' ->
  dom (forEach_from (fun h i obj => obj_set (kf h i) (vf i) obj) n hs o)
  = dom (forEach_from (fun h i obj => obj_set (kf h i) (vf' i) obj) n hs o').
Proof.
  revert n o o'. induction hs as [|x hs IH]; intros n o o' H; simpl; [exact H|].
  apply IH. now apply obj_set_dom.
Qed.

Lemma forEach_obj_set_size_distinct (kf : jsstring -> nat -> jsstring) (vf : nat -> jsstring)
    (hs : list jsstring) (n : nat) (o : jsobj) :
  (forall j h, hs !! j = Some h -> kf h (n + j)%nat <> js "__proto__") ->
  (forall j h, hs !! j = Some h -> o !! kf h (n + j)%nat = None) ->
  (forall j1 j2 h1 h2, hs !! j1 = Some h1 -> hs !! j2 = Some h2 ->
     kf h1 (n + j1)%nat = kf h2 (n + j2)%nat -> j1 = j2) ->
  size (forEach_from (fun h i obj => obj_set (kf h i) (vf i) obj) n hs o)
  = (size o + length hs)%nat.
Proof.
  revert n o. induction hs as [|x hs IH]; intros n o Hp Hfresh Hinj; simpl; [lia|].
  pose proof (Hp 0%nat x eq_refl) as Hp0.
  pose proof (Hfresh 0%nat x eq_refl) as Hf0.
  rewrite Nat.add_0_r in Hp0, Hf0.
  rewrite IH.
  - unfold obj_set. rewrite decide_False by assumption.
    rewrite map_size_insert_None by assumption. lia.
  - intros j h Hj. replace (S n + j)%nat with (n + S j)%nat by lia. now apply (Hp (S j)).
  - intros j h Hj. replace (S n + j)%nat with (n + S j)%nat by lia.
    rewrite obj_set_lookup_ne; [now apply (Hfresh (S j))|].
    intros E. specialize (Hinj 0%nat (S j) x h eq_refl Hj).
    rewrite Nat.add_0_r in Hinj. specialize (Hinj E). discriminate.
  - intros j1 j2 h1 h2 H1 H2 E.
    replace (S n + j1)%nat with (n + S j1)%nat in E by lia.
    replace (S n + j2)%nat with (n + S j2)%nat in E by lia.
    specialize (Hinj (S j1) (S j2) h1 h2 H1 H2 E). lia.
Qed.

Lemma cellOr_fit (n : nat) (row : list jsstring) (j : nat) :
  (j < n)%nat -> cellOr (fit n row) j = cellOr row j.
Proof.
  intros Hj. unfold cellOr, fit.
  destruct (decide (j < length row)%nat) as [Hin|Hout].
  - rewrite lookup_app_l by (rewrite length_take; lia).
    now rewrite lookup_take_lt.
  - rewrite take_ge by lia.
    rewrite lookup_app_r by lia.
    rewrite lookup_replicate_2 by lia.
    now rewrite lookup_ge_None_2 by lia.
Qed.

Lemma rowWithHeaders_fit (hs row : list jsstring) :
  rowWithHeaders hs (fit (length hs) row) = rowWithHeaders hs row.
Proof.
  unfold rowWithHeaders, forEach. apply forEach_from_ext.
  intros j h Hj obj. simpl. rewrite cellOr_fit; [reflexivity|].
  now apply lookup_lt_Some in Hj.
Qed.

(** When [normalize] throws and what it returns. It throws, and then a
    [RangeError], exactly when the first row has no header and the grid
    has more rows than one call takes arguments. Every table it returns
    has the requested tab name; as headers the trimmed first row, none
    of which begins or ends with white space; and one record per row
    after the first, none added and none dropped. A grid of the header
    row alone gives no record. *)
Theorem normalize_shape (argLimit : N) (tabName : jsstring) (grid : list (list jsstring)) :
  (forall err, normalize argLimit tabName grid = inl err <->
     err = RangeError
     /\ hasHeaders (List.map trim (default [] (head grid))) = false
     /\ (argLimit < N.of_nat (length grid))%N)
  /\ (forall t, normalize argLimit tabName grid = inr t ->
        tab t = tabName
        /\ headers t = List.map trim (default [] (head grid))
        /\ length (rows t) = pred (length grid)
        /\ Forall (fun h => trim h = h
                            /\ (forall u, head h = Some u -> isWhiteSpace u = false)
                            /\ (forall u, last h = Some u -> isWhiteSpace u = false))
                  (headers t)).
Proof.
  assert (forall row0, Forall (fun h => trim h = h
                      /\ (forall u, head h = Some u -> isWhiteSpace u = false)
                      /\ (forall u, last h = Some u -> isWhiteSpace u = false))
            (List.map trim row0)) as Htrim.
  { intros row0. rewrite map_as_fmap. apply Forall_fmap, Forall_forall.
    intros c _. simpl. destruct (trim_spec c) as (H1 & H2 & H3 & _). auto. }
  destruct grid as [|row0 body].
  - simpl. split.
    + intros err. split; [discriminate|]. intros (_ & _ & H). lia.
    + intros t H. injection H as <-. simpl. repeat split. constructor.
  - simpl head. simpl default.
    destruct (hasHeaders (List.map trim row0)) eqn:Hhas.
    + rewrite (normalize_headers_branch argLimit tabName row0 body Hhas). split.
      * intros err. split; [discriminate|]. intros (_ & H & _). discriminate.
      * intros t H. injection H as <-. simpl.
        split; [reflexivity|]. split; [reflexivity|].
        split; [apply List.length_map | apply Htrim].
    + destruct (N.ltb_spec argLimit (N.of_nat (length (row0 :: body)))) as [Hlt|Hle].
      * rewrite (normalize_blank_throws argLimit tabName row0 body Hhas Hlt). split.
        -- intros err. split.
           ++ intros H. injection H as <-. auto.
           ++ intros (-> & _). reflexivity.
        -- intros t H. discriminate.
      * rewrite (normalize_blank_branch argLimit tabName row0 body Hhas Hle). split.
        -- intros err. split; [discriminate|]. intros (_ & _ & H). lia.
        -- intros t H. injection H as <-. simpl.
           split; [reflexivity|]. split; [reflexivity|].
           split; [apply List.length_map | apply Htrim].
Qed.

Lemma normalize_shape_witness :
  normalize 2 (js "T") [[js " "]; [js "a"]; [js "b"]] = inl RangeError.
Proof.
  apply (normalize_shape 2 (js "T") [[js " "]; [js "a"]; [js "b"]]).
  split; [reflexivity|]. split; [reflexivity|]. vm_compute. reflexivity.
Defined.

(** With real headers a record is made of the first [headers.length]
    cells of its row only: cells beyond the last header are ignored and
    missing ones count as empty strings, so cutting or padding every
    body row to the header width gives the same result. *)
Theorem normalize_fit_rows (argLimit : N) (tabName : jsstring) (row0 : list jsstring)
    (body : list (list jsstring)) :
  hasHeaders (List.map trim row0) = true ->
  normalize argLimit tabName (row0 :: List.map (fit (length row0)) body)
  = normalize argLimit tabName (row0 :: body).
Proof.
  intros Hhas. rewrite !normalize_headers_branch by exact Hhas. do 2 f_equal.
  rewrite List.map_map. apply List.map_ext. intros row.
  rewrite <- (List.length_map trim row0). apply rowWithHeaders_fit.
Qed.

Lemma normalize_fit_rows_witness :
  normalize 125000 (js "T")
    [[js "Name"; js "Age"]; [js "Ana"; js "30"; js "x"]; [js "Leo"]]
  = normalize 125000 (js "T")
      [[js "Name"; js "Age"]; [js "Ana"; js "30"]; [js "Leo"; js ""]].
Proof.
  symmetry.
  apply (normalize_fit_rows 125000 (js "T") [js "Name"; js "Age"]
           [[js "Ana"; js "30"; js "x"]; [js "Leo"]]).
  reflexivity.
Defined.

(** All records of one result have the same field names, whatever the
    lengths and contents of their rows. *)
Theorem normalize_uniform_keys (argLimit : N) (tabName : jsstring)
    (grid : list (list jsstring)) (t : table) (r1 r2 : jsobj) :
  normalize argLimit tabName grid = inr t ->
  r1 ∈ rows t ->
  r2 ∈ rows t ->
  dom r1 = dom r2.
Proof.
  intros Ht. destruct grid as [|row0 body].
  - injection Ht as <-. simpl. intros H. now apply elem_of_nil in H.
  - destruct (hasHeaders (List.map trim row0)) eqn:Hhas.
    + rewrite (normalize_headers_branch argLimit tabName row0 body Hhas) in Ht.
      injection Ht as <-. simpl. rewrite map_as_fmap. intros H1 H2.
      apply list_elem_of_fmap in H1 as (row1 & -> & _).
      apply list_elem_of_fmap in H2 as (row2 & -> & _).
      unfold rowWithHeaders, forEach. now apply forEach_obj_set_dom.
    + destruct (N.ltb_spec argLimit (N.of_nat (length (row0 :: body)))) as [Hlt|Hle].
      * rewrite (normalize_blank_throws argLimit tabName row0 body Hhas Hlt) in Ht.
        discriminate.
      * rewrite (normalize_blank_branch argLimit tabName row0 body Hhas Hle) in Ht.
        injection Ht as <-. simpl rows. rewrite map_as_fmap. intros H1 H2.
        apply list_elem_of_fmap in H1 as (row1 & -> & _).
        apply list_elem_of_fmap in H2 as (row2 & -> & _).
        unfold rowWithGenHeaders, forEach.
        now apply (forEach_obj_set_dom (fun h _ => h)).
Qed.

Lemma normalize_uniform_keys_witness :
  dom ({[ js "Name" := js "Ana"; js "Age" := js "30" ]} : gmap (list N) (list N))
  = dom ({[ js "Name" := js "Leo"; js "Age" := js "" ]} : gmap (list N) (list N)).
Proof.
  apply (normalize_uniform_keys 125000 (js "T")
           [[js " Name "; js "Age"]; [js "Ana"; js "30"]; [js "Leo"]]
           {| tab := js "T"; headers := [js "Name"; js "Age"];
              rows := [ {[ js "Name" := js "Ana"; js "Age" := js "30" ]};
                        {[ js "Name" := js "Leo"; js "Age" := js "" ]} ] |}).
  - vm_compute. reflexivity.
  - apply list_elem_of_here.
  - apply list_elem_of_further, list_elem_of_here.
Defined.

(** With real headers a record never has more fields than there are
    headers, and it has exactly one per header when the column keys
    (the header, or [Col(j+1)] for an empty header) are pairwise
    distinct and none is ["__proto__"]. *)
Theorem rowWithHeaders_size (hs row : list jsstring) :
  (size (rowWithHeaders hs row) <= length hs)%nat
  /\ (NoDup (imap (fun j h => keyOf h j) hs) ->
      js "__proto__" ∉ hs ->
      size (rowWithHeaders hs row) = length hs).
Proof.
  split.
  - pose proof (assign_size keyOf (cellOr row) hs 0 ∅) as H.
    rewrite map_size_empty in H. exact H.
  - intros Hnd Hproto. unfold rowWithHeaders, forEach.
    rewrite forEach_obj_set_size_distinct.
    + now rewrite map_size_empty.
    + intros j h Hj E. simpl in E. destruct h as [|u r].
      * now apply (colName_not_proto j).
      * simpl in E. apply Hproto. rewrite <- E.
        apply list_elem_of_lookup. now exists j.
    + intros j h _. apply lookup_empty.
    + intros j1 j2 h1 h2 H1 H2 E. simpl in E.
      apply (proj1 (NoDup_alt _) Hnd j1 j2 (keyOf h1 j1)).
      * now rewrite list_lookup_imap, H1.
      * now rewrite list_lookup_imap, H2, E.
Qed.

Lemma rowWithHeaders_size_witness :
  size (rowWithHeaders [js "Name"; js ""; js "Age"] [js "Leo"]) = 3%nat.
Proof.
  apply (rowWithHeaders_size [js "Name"; js ""; js "Age"] [js "Leo"]).
  - refine (@bool_decide_unpack _ (NoDup_dec _) _). vm_compute. exact I.
  - intros Hin. apply list_elem_of_In in Hin. simpl in Hin.
    destruct Hin as [E|[E|[E|[]]]]; discriminate.
Defined.

(** ** More on the loader *)

Lemma tabTitles_spec_mem (meta : option (list (option jsstring))) (t : jsstring) :
  t ∈ tabTitles meta <-> t <> [] /\ exists l, meta = Some l /\ Some t ∈ l.
Proof.
  destruct meta as [l|]; simpl.
  - rewrite list_elem_of_omap. split.
    + intros (x & Hx & Hf). destruct x as [[|u r]|]; try discriminate.
      injection Hf as <-. split; [discriminate|]. now exists l.
    + intros (Hne & l' & Hl & Hin). injection Hl as <-.
      exists (Some t). split; [exact Hin|]. destruct t; [contradiction | reflexivity].
  - split.
    + intros H. now apply elem_of_nil in H.
    + intros (_ & l & Hl & _). discriminate.
Qed.

(** The tab list keeps the titles in the order of the metadata and
    drops the sheets without title and those whose title is empty; no
    metadata at all gives the empty list, and a list of non-empty
    titles comes back as it is. *)
Theorem tabTitles_spec (meta : option (list (option jsstring))) :
  (forall t, t ∈ tabTitles meta <-> t <> [] /\ exists l, meta = Some l /\ Some t ∈ l)
  /\ sublist (Some <$> tabTitles meta) (default [] meta)
  /\ (forall titles, Forall (fun t => t <> []) titles ->
        tabTitles (Some (List.map Some titles)) = titles).
Proof.
  split; [|split].
  - intros t. apply tabTitles_spec_mem.
  - destruct meta as [l|]; simpl; [|constructor].
    induction l as [|[[|u r]|] l IH]; simpl.
    + constructor.
    + now constructor.
    + now constructor.
    + now constructor.
  - intros titles H. unfold tabTitles.
    induction H as [|t titles Ht _ IH]; [reflexivity|].
    destruct t as [|u r]; [contradiction|].
    simpl in *. f_equal. exact IH.
Qed.

Lemma fetchTabTitles_ok (e : env) (w : world) (meta : option (list (option jsstring))) :
  fst (fetchTabTitles e w) = inr meta ->
  upstreamLog (snd (fetchTabTitles e w)) = SpreadsheetsGet :: GetClient :: upstreamLog w.
Proof.
  unfold fetchTabTitles, bind, await. simpl.
  destruct (outcome (getSheetsApi (sheets e) (upstreamLog w) (clock w))) as [err|[]];
    simpl; [discriminate | reflexivity].
Qed.

Lemma fetchTabTitles_contacts (e : env) (w : world) :
  exists pre, upstreamLog (snd (fetchTabTitles e w)) = pre ++ GetClient :: upstreamLog w.
Proof.
  unfold fetchTabTitles, bind, await. simpl.
  destruct (outcome (getSheetsApi (sheets e) (upstreamLog w) (clock w))) as [err|[]]; simpl.
  - now exists [].
  - now exists [SpreadsheetsGet].
Qed.

(** The tab list is fetched once per TTL: after a miss whose metadata
    fetch succeeds, [listSheetTabs] has made one [spreadsheets.get] and
    returns the titles; a second call up to the expiry returns the same
    list and changes nothing; a call after the expiry contacts the
    upstream again. *)
Theorem listSheetTabs_one_fetch_per_ttl (e : env) (w0 : world)
    (meta : option (list (option jsstring))) (t2 t3 : Z) :
  let key := cacheKey [js "tabs"; sheetIdPart e] in
  let fetched := fetchTabTitles e (snd (getCache key w0)) in
  let expiry := (clock (snd fetched) + CACHE_TTL_MS e)%Z in
  let run1 := listSheetTabs e w0 in
  let run2 := listSheetTabs e (at_time t2 (snd run1)) in
  let run3 := listSheetTabs e (at_time t3 (snd run2)) in
  fst (getCache key w0) = inr None ->
  fst fetched = inr meta ->
  (t2 <= expiry)%Z ->
  (expiry < t3)%Z ->
  fst run1 = inr (Tabs (tabTitles meta))
  /\ upstreamLog (snd run1) = SpreadsheetsGet :: GetClient :: upstreamLog w0
  /\ run2 = (fst run1, at_time t2 (snd run1))
  /\ exists pre, upstreamLog (snd run3) = pre ++ GetClient :: upstreamLog (snd run2).
Proof.
  intros key fetched expiry run1 run2 run3 Hmiss Hok Ht2 Ht3.
  set (result := Tabs (tabTitles meta)).
  assert (run1 = (inr result,
                  snd (setCache key result (CACHE_TTL_MS e) (snd fetched)))) as R1.
  { subst run1. rewrite (listSheetTabs_miss e w0 Hmiss). fold key.
    subst fetched. rewrite (getCache_miss key w0 Hmiss) in *.
    match goal with |- context [fetchTabTitles e ?wm] =>
      destruct (fetchTabTitles e wm) as [[err|meta'] wf] end;
      simpl in Hok; [discriminate|].
    injection Hok as ->. reflexivity. }
  assert (upstreamLog (snd fetched) = SpreadsheetsGet :: GetClient :: upstreamLog w0) as Hlog1.
  { subst fetched. rewrite (fetchTabTitles_ok e _ meta Hok).
    now rewrite (getCache_miss key w0 Hmiss). }
  assert (cache (snd run1) !! key = Some {| expiresAt := expiry; data := result |}) as Hstored.
  { rewrite R1. simpl. apply lookup_insert_eq. }
  assert (run2 = (inr result, at_time t2 (snd run1))) as R2.
  { subst run2. apply listSheetTabs_hit. fold key.
    now rewrite (getCache_live key (at_time t2 (snd run1)) _ Hstored Ht2). }
  assert (fst (getCache key (at_time t3 (snd run2))) = inr None) as Hmiss3.
  { rewrite R2. simpl.
    apply (getCache_dead key (at_time t3 (at_time t2 (snd run1))) _ Hstored). simpl. lia. }
  split; [now rewrite R1|]. split; [now rewrite R1|]. split; [now rewrite R2, R1|].
  subst run3. rewrite (listSheetTabs_miss e _ Hmiss3). fold key.
  match goal with |- context [fetchTabTitles e ?wm] =>
    destruct (fetchTabTitles_contacts e wm) as [pre Hpre];
    destruct (fetchTabTitles e wm) as [[err|meta'] wf] end;
    simpl in *; exists pre; exact Hpre.
Qed.

Lemma listSheetTabs_one_fetch_per_ttl_witness :
  let e := {| SHEET_ID := Some (js "S1"); CACHE_TTL_MS := 300000;
              sheets := upstream_fixed 5 [js "Hoja 1"; js "Hoja 2"] (fun _ => []);
              argumentLimit := 125000 |} in
  let w0 := {| cache := ∅; clock := 0; upstreamLog := [] |} in
  let run1 := listSheetTabs e w0 in
  fst run1 = inr (Tabs [js "Hoja 1"; js "Hoja 2"])
  /\ listSheetTabs e (at_time 300010 (snd run1)) = (fst run1, at_time 300010 (snd run1)).
Proof.
  cbv zeta.
  set (e := {| SHEET_ID := Some (js "S1"); CACHE_TTL_MS := 300000;
               sheets := upstream_fixed 5 [js "Hoja 1"; js "Hoja 2"] (fun _ => []);
               argumentLimit := 125000 |}).
  set (w0 := {| cache := ∅; clock := 0; upstreamLog := [] |}).
  destruct (listSheetTabs_one_fetch_per_ttl e w0
              (Some [Some (js "Hoja 1"); Some (js "Hoja 2")]) 300010 300011)
    as (H1 & _ & H2 & _).
  - vm_compute. reflexivity.
  - vm_compute. reflexivity.
  - vm_compute. discriminate.
  - vm_compute. reflexivity.
  - split; [exact H1 | exact H2].
Defined.

(** A live entry is served as it is: with an entry under the derived
    key whose expiry has not passed, [readSheetToJson] and
    [listSheetTabs] return its data and leave the cache, the entry's
    expiry, the clock and the upstream untouched, whatever the upstream
    would answer. A hit does not renew the entry. *)
Theorem live_entry_served (e : env) (w : world) :
  (forall it, cache w !! cacheKey [js "tabs"; sheetIdPart e] = Some it ->
     (clock w <= expiresAt it)%Z ->
     listSheetTabs e w = (inr (data it), w))
  /\ (forall tabName it,
        cache w !! cacheKey [js "data"; sheetIdPart e; tabName] = Some it ->
        (clock w <= expiresAt it)%Z ->
        readSheetToJson e tabName w = (inr (data it), w)).
Proof.
  split.
  - intros it E Hle. apply listSheetTabs_hit.
    now rewrite (getCache_live _ w it E Hle).
  - intros tabName it E Hle. apply readSheetToJson_hit.
    now rewrite (getCache_live _ w it E Hle).
Qed.

Lemma live_entry_served_witness :
  let e := {| SHEET_ID := Some (js "S1"); CACHE_TTL_MS := 300000;
              sheets := upstream_down (js "quota");
              argumentLimit := 125000 |} in
  let stored := {| expiresAt := 50;
                   data := Sheet {| tab := js "X"; headers := []; rows := [] |} |} in
  let w := {| cache := {[ cacheKey [js "data"; js "S1"; js "X"] := stored ]};
              clock := 50; upstreamLog := [] |} in
  readSheetToJson e (js "X") w = (inr (data stored), w).
Proof.
  cbv zeta.
  apply (live_entry_served
           {| SHEET_ID := Some (js "S1"); CACHE_TTL_MS := 300000;
              sheets := upstream_down (js "quota");
              argumentLimit := 125000 |}).
  - vm_compute. reflexivity.
  - vm_compute. discriminate.
Defined.

Lemma readSheetToJson_cases (e : env) (tabName : jsstring) (w : world) :
  let key := cacheKey [js "data"; sheetIdPart e; tabName] in
  let run := readSheetToJson e tabName w in
  (* hit *)
  (exists v, fst (getCache key w) = inr (Some v) /\ run = (inr v, w))
  (* miss, thrown: by the upstream or by the normaliser *)
  \/ (exists err pre,
        fst (getCache key w) = inr None /\ fst run = inl err
        /\ cache (snd run) = delete key (cache w)
        /\ upstreamLog (snd run) = pre ++ GetClient :: upstreamLog w
        /\ (pre = [] \/ pre = [ValuesGet (rangeOf tabName)]))
  (* miss, loaded *)
  \/ (exists values t it,
        fst (getCache key w) = inr None
        /\ normalize (argumentLimit e) tabName (default [] values) = inr t
        /\ fst run = inr (Sheet t)
        /\ data it = Sheet t
        /\ cache (snd run) = <[key := it]> (delete key (cache w))
        /\ upstreamLog (snd run)
           = ValuesGet (rangeOf tabName) :: GetClient :: upstreamLog w).
Proof.
  intros key run. subst run.
  destruct (getCache_fst key w) as [[v|] H].
  - left. exists v. split; [exact H|]. now apply readSheetToJson_hit.
  - right. rewrite (readSheetToJson_miss e tabName w H). fold key.
    match goal with |- context [fetchGrid e tabName ?wm] =>
      pose proof (fetchGrid_cache e tabName wm) as Hc;
      pose proof (fetchGrid_ok e tabName wm) as Hok;
      destruct (fetchGrid_contacts e tabName wm) as [pre Hpre];
      assert (pre = [] \/ pre = [ValuesGet (rangeOf tabName)]) as Hshape
    end.
    { revert Hpre. unfold fetchGrid, bind, await. simpl.
      destruct (outcome (getSheetsApi (sheets e) (upstreamLog w) (clock w))) as [err|[]];
        simpl; intros Hpre.
      - left. destruct pre as [|c pre]; [reflexivity|].
        apply (f_equal (@length call)) in Hpre. simpl in Hpre.
        rewrite length_app in Hpre. simpl in Hpre. lia.
      - right. destruct pre as [|c [|c' pre]].
        + apply (f_equal (@length call)) in Hpre. simpl in Hpre. lia.
        + simpl in Hpre. now injection Hpre as <-.
        + apply (f_equal (@length call)) in Hpre. simpl in Hpre.
          rewrite length_app in Hpre. simpl in Hpre. lia. }
    match goal with |- context [fetchGrid e tabName ?wm] =>
      destruct (fetchGrid e tabName wm) as [[err|values] wf] end; simpl in Hc, Hok, Hpre.
    + left. exists err, pre. repeat split; auto.
    + destruct (normalize (argumentLimit e) tabName (default [] values)) as [err|t] eqn:Hn.
      * left. exists err, pre. repeat split; auto.
      * right. exists values, t, {| expiresAt := (clock wf + CACHE_TTL_MS e)%Z;
                                   data := Sheet t |}.
        simpl. repeat split; auto.
        -- now rewrite Hc.
        -- now apply (Hok values).
Qed.

(** [readSheetToJson] works on its own key only: whatever happens, the
    entries under all other keys are as before, no [spreadsheets.get]
    is made, and at most one [spreadsheets.values.get] is added to the
    calls made so far. *)
Theorem readSheetToJson_frame (e : env) (tabName : jsstring) (w : world) :
  let key := cacheKey [js "data"; sheetIdPart e; tabName] in
  let after := snd (readSheetToJson e tabName w) in
  (forall k, k <> key -> cache after !! k = cache w !! k)
  /\ (exists pre, upstreamLog after = pre ++ upstreamLog w
                  /\ SpreadsheetsGet ∉ pre)
  /\ (gridFetches (upstreamLog w) <= gridFetches (upstreamLog after)
      <= S (gridFetches (upstreamLog w)))%nat.
Proof.
  intros key after. subst after.
  destruct (readSheetToJson_cases e tabName w)
    as [(v & _ & R) | [(err & pre & _ & _ & Hc & Hl & Hp)
                        | (values & t & it & _ & _ & _ & _ & Hc & Hl)]];
    fold key in Hc || idtac.
  - rewrite R. simpl. split; [reflexivity|]. split; [|lia].
    exists []. split; [reflexivity | apply not_elem_of_nil].
  - rewrite Hc, Hl. split; [|split].
    + intros k Hk. now apply lookup_delete_ne.
    + exists (pre ++ [GetClient]). split; [now rewrite <- app_assoc|].
      destruct Hp as [-> | ->]; simpl; intros Hin;
        apply list_elem_of_In in Hin; simpl in Hin;
        repeat (destruct Hin as [Hin|Hin]; [discriminate|]); exact Hin.
    + destruct Hp as [-> | ->]; unfold gridFetches; simpl; lia.
  - rewrite Hc, Hl. split; [|split].
    + intros k Hk. rewrite lookup_insert_ne by congruence. now apply lookup_delete_ne.
    + exists [ValuesGet (rangeOf tabName); GetClient]. split; [reflexivity|].
      intros Hin. apply list_elem_of_In in Hin. simpl in Hin.
      repeat (destruct Hin as [Hin|Hin]; [discriminate|]); exact Hin.
    + unfold gridFetches; simpl; lia.
Qed.

(** Failures are not cached: after a call that missed and whose fetch
    was rejected, a call at any later time misses again and goes back
    to the upstream. *)
Theorem readSheetToJson_retries_after_failure (e : env) (tabName : jsstring)
    (w : world) (err : error) (t : Z) :
  let key := cacheKey [js "data"; sheetIdPart e; tabName] in
  let failed := snd (readSheetToJson e tabName w) in
  fst (readSheetToJson e tabName w) = inl err ->
  cache failed !! key = None
  /\ fst (getCache key (at_time t failed)) = inr None
  /\ exists pre, upstreamLog (snd (readSheetToJson e tabName (at_time t failed)))
                 = pre ++ GetClient :: upstreamLog failed.
Proof.
  intros key failed Hfail. subst failed.
  assert (cache (snd (readSheetToJson e tabName w)) !! key = None) as Hnone.
  { destruct (readSheetToJson_cases e tabName w)
      as [(v & _ & R) | [(err' & pre & _ & _ & Hc & _) | (values & t' & it & _ & _ & R & _)]].
    - rewrite R in Hfail. discriminate.
    - fold key in Hc. rewrite Hc. apply lookup_delete_eq.
    - rewrite R in Hfail. discriminate. }
  split; [exact Hnone|].
  assert (fst (getCache key (at_time t (snd (readSheetToJson e tabName w)))) = inr None)
    as Hmiss by now rewrite getCache_absent.
  split; [exact Hmiss|].
  rewrite (readSheetToJson_miss e tabName _ Hmiss). fold key.
  match goal with |- context [fetchGrid e tabName ?wm] =>
    destruct (fetchGrid_contacts e tabName wm) as [pre Hpre];
    destruct (fetchGrid e tabName wm) as [[err'|values] wf] end;
    simpl in Hpre; exists pre; [exact Hpre|].
  destruct (normalize (argumentLimit e) tabName (default [] values)); exact Hpre.
Qed.

Lemma readSheetToJson_retries_after_failure_witness :
  let e := {| SHEET_ID := Some (js "S1"); CACHE_TTL_MS := 300000;
              sheets := upstream_down (js "quota");
              argumentLimit := 125000 |} in
  let w := {| cache := ∅; clock := 0; upstreamLog := [] |} in
  fst (getCache (cacheKey [js "data"; js "S1"; js "X"])
         (at_time 1 (snd (readSheetToJson e (js "X") w)))) = inr None.
Proof.
  cbv zeta.
  apply (readSheetToJson_retries_after_failure
           {| SHEET_ID := Some (js "S1"); CACHE_TTL_MS := 300000;
              sheets := upstream_down (js "quota");
              argumentLimit := 125000 |} (js "X")
           {| cache := ∅; clock := 0; upstreamLog := [] |}
           (UpstreamUnavailable (js "quota")) 1).
  vm_compute. reflexivity.
Defined.

(** ** The routes *)


Lemma listSheetTabs_fixed (sid : jsstring) (ttl latency : Z) (titles : list jsstring)
    (grid : jsstring -> list (list jsstring)) (limit : N) (w : world) :
  let e := {| SHEET_ID := Some sid; CACHE_TTL_MS := ttl;
              sheets := upstream_fixed latency titles grid;
              argumentLimit := limit |} in
  let key := cacheKey [js "tabs"; sid] in
  cache w !! key = None ->
  listSheetTabs e w
  = (inr (Tabs (tabTitles (Some (List.map Some titles)))),
     {| cache := <[key := {| expiresAt := (clock w + latency + latency + ttl)%Z;
                             data := Tabs (tabTitles (Some (List.map Some titles))) |}]>
                   (cache w);
        clock := (clock w + latency + latency)%Z;
        upstreamLog := SpreadsheetsGet :: GetClient :: upstreamLog w |}).
Proof.
  intros e key Hnone.
  assert (fst (getCache key w) = inr None) as Hmiss by now rewrite getCache_absent.
  rewrite (listSheetTabs_miss e w Hmiss).
  change (cacheKey [js "tabs"; sheetIdPart e]) with key.
  rewrite (delete_id _ _ Hnone). reflexivity.
Qed.

Lemma readSheetToJson_fixed (sid tab : jsstring) (ttl latency : Z) (titles : list jsstring)
    (grid : jsstring -> list (list jsstring)) (limit : N) (tbl : table) (w : world) :
  let e := {| SHEET_ID := Some sid; CACHE_TTL_MS := ttl;
              sheets := upstream_fixed latency titles grid;
              argumentLimit := limit |} in
  let key := cacheKey [js "data"; sid; tab] in
  normalize limit tab (grid (rangeOf tab)) = inr tbl ->
  cache w !! key = None ->
  readSheetToJson e tab w
  = (inr (Sheet tbl),
     {| cache := <[key := {| expiresAt := (clock w + latency + latency + ttl)%Z;
                             data := Sheet tbl |}]>
                   (cache w);
        clock := (clock w + latency + latency)%Z;
        upstreamLog := ValuesGet (rangeOf tab) :: GetClient :: upstreamLog w |}).
Proof.
  intros e key Hn Hnone.
  assert (fst (getCache key w) = inr None) as Hmiss by now rewrite getCache_absent.
  rewrite (readSheetToJson_miss e tab w Hmiss).
  change (cacheKey [js "data"; sheetIdPart e; tab]) with key.
  rewrite (delete_id _ _ Hnone).
  match goal with |- context [fetchGrid e tab ?wm] =>
    change (fetchGrid e tab wm)
      with (@inr error _ (Some (grid (rangeOf tab))),
            {| cache := cache wm; clock := (clock wm + latency + latency)%Z;
               upstreamLog := ValuesGet (rangeOf tab) :: GetClient :: upstreamLog wm |})
  end.
  change (argumentLimit e) with limit.
  cbv beta iota.
  change (default [] (Some (grid (rangeOf tab)))) with (grid (rangeOf tab)).
  rewrite Hn. reflexivity.
Qed.

(** End to end, against an upstream that answers: with [SHEET_ID] set,
    nothing cached under the two keys involved, these keys distinct and
    a grid that [normalize] turns into a table, a request for a listed
    tab is answered 200 with that table after one metadata fetch and
    one grid fetch; the same request repeated while both entries are
    alive gets the same answer without any upstream call. *)
Theorem api_data_serves_listed_tab (sid tab : jsstring) (ttl latency : Z)
    (titles : list jsstring) (grid : jsstring -> list (list jsstring))
    (limit : N) (tbl : table) (w : world) (t : Z) :
  let e := {| SHEET_ID := Some sid; CACHE_TTL_MS := ttl;
              sheets := upstream_fixed latency titles grid;
              argumentLimit := limit |} in
  let answer := {| status := 200;
                   body := JsonBody (Sheet tbl) |} in
  let first := api_data e tab w in
  sid <> [] -> tab <> [] -> tab ∈ titles ->
  normalize limit tab (grid (rangeOf tab)) = inr tbl ->
  cacheKey [js "tabs"; sid] <> cacheKey [js "data"; sid; tab] ->
  cache w !! cacheKey [js "tabs"; sid] = None ->
  cache w !! cacheKey [js "data"; sid; tab] = None ->
  (t <= clock w + latency + latency + ttl)%Z ->
  (t <= clock w + latency + latency + latency + latency + ttl)%Z ->
  fst first = answer
  /\ upstreamLog (snd first)
     = ValuesGet (rangeOf tab) :: GetClient :: SpreadsheetsGet :: GetClient :: upstreamLog w
  /\ api_data e tab (at_time t (snd first)) = (answer, at_time t (snd first)).
Proof.
  intros e answer first Hsid Htab Hin Hn Hkeys Hnt Hnd Ht1 Ht2.
  assert (sheetIdMissing e = false) as Hcfg by (destruct sid; [contradiction | reflexivity]).
  assert (tab ∈ tabTitles (Some (List.map Some titles))) as Hlisted.
  { apply tabTitles_spec_mem. split; [exact Htab|].
    exists (List.map Some titles). split; [reflexivity|].
    rewrite map_as_fmap. now apply list_elem_of_fmap_2. }
  pose proof (listSheetTabs_fixed sid ttl latency titles grid limit w Hnt) as L.
  cbv zeta in L. fold e in L.
  set (w1 := {| cache := <[cacheKey [js "tabs"; sid] :=
                  {| expiresAt := (clock w + latency + latency + ttl)%Z;
                     data := Tabs (tabTitles (Some (List.map Some titles))) |}]> (cache w);
                clock := (clock w + latency + latency)%Z;
                upstreamLog := SpreadsheetsGet :: GetClient :: upstreamLog w |}) in *.
  assert (cache w1 !! cacheKey [js "data"; sid; tab] = None) as Hnd1.
  { simpl. now rewrite lookup_insert_ne. }
  pose proof (readSheetToJson_fixed sid tab ttl latency titles grid limit tbl w1 Hn Hnd1) as R.
  cbv zeta in R. fold e in R.
  assert (first = (answer, snd first)) as F.
  { subst first. unfold api_data. rewrite Hcfg, L.
    rewrite bool_decide_eq_true_2 by exact Hlisted. rewrite R. reflexivity. }
  assert (snd first
          = {| cache := <[cacheKey [js "data"; sid; tab] :=
                 {| expiresAt := (clock w1 + latency + latency + ttl)%Z;
                    data := Sheet tbl |}]> (cache w1);
               clock := (clock w1 + latency + latency)%Z;
               upstreamLog := ValuesGet (rangeOf tab) :: GetClient :: upstreamLog w1 |}) as S2.
  { subst first. unfold api_data. rewrite Hcfg, L.
    rewrite bool_decide_eq_true_2 by exact Hlisted. rewrite R. reflexivity. }
  split; [now rewrite F|]. split; [now rewrite S2|].
  (* the repeated request *)
  assert (listSheetTabs e (at_time t (snd first))
          = (inr (Tabs (tabTitles (Some (List.map Some titles)))), at_time t (snd first))) as L2.
  { apply listSheetTabs_hit.
    rewrite (getCache_live _ (at_time t (snd first))
               {| expiresAt := (clock w + latency + latency + ttl)%Z;
                  data := Tabs (tabTitles (Some (List.map Some titles))) |});
      [reflexivity | | exact Ht1].
    rewrite S2. simpl.
    rewrite lookup_insert_ne by (intros E; apply Hkeys; symmetry; exact E).
    apply lookup_insert_eq. }
  assert (readSheetToJson e tab (at_time t (snd first))
          = (inr (Sheet tbl), at_time t (snd first))) as R2.
  { apply readSheetToJson_hit.
    rewrite (getCache_live _ (at_time t (snd first))
               {| expiresAt := (clock w1 + latency + latency + ttl)%Z;
                  data := Sheet tbl |});
      [reflexivity | | simpl; lia].
    rewrite S2. simpl. apply lookup_insert_eq. }
  unfold api_data. rewrite Hcfg, L2.
  rewrite bool_decide_eq_true_2 by exact Hlisted. rewrite R2. reflexivity.
Qed.

Lemma api_data_serves_listed_tab_witness :
  let grid := [[js "Name"]; [js "Ana"]] in
  let e := {| SHEET_ID := Some (js "S1"); CACHE_TTL_MS := 300000;
              sheets := upstream_fixed 5 [js "Hoja 1"] (fun _ => grid);
              argumentLimit := 125000 |} in
  let w := {| cache := ∅; clock := 0; upstreamLog := [] |} in
  fst (api_data e (js "Hoja 1") w)
  = {| status := 200;
       body := JsonBody (Sheet {| tab := js "Hoja 1"; headers := [js "Name"];
                                  rows := [ {[ js "Name" := js "Ana" ]} ] |}) |}.
Proof.
  cbv zeta.
  apply (api_data_serves_listed_tab (js "S1") (js "Hoja 1") 300000 5 [js "Hoja 1"]
           (fun _ => [[js "Name"]; [js "Ana"]]) 125000
           {| tab := js "Hoja 1"; headers := [js "Name"];
              rows := [ {[ js "Name" := js "Ana" ]} ] |}
           {| cache := ∅; clock := 0; upstreamLog := [] |} 100).
  - discriminate.
  - discriminate.
  - apply list_elem_of_here.
  - vm_compute. reflexivity.
  - vm_compute. discriminate.
  - apply lookup_empty.
  - apply lookup_empty.
  - simpl. lia.
  - simpl. lia.
Defined.

(** [/api/sheets] never asks for a grid. It answers 400, touching
    nothing, exactly when [SHEET_ID] is missing; otherwise 200 with
    [SHEET_ID] and whatever [listSheetTabs] returned, or 500 when
    [listSheetTabs] threw, in the world [listSheetTabs] left. *)
Theorem api_sheets_spec (e : env) (w : world) :
  let r := api_sheets e w in
  gridFetches (upstreamLog (snd r)) = gridFetches (upstreamLog w)
  /\ (sheetIdMissing e = true ->
      fst (fst r) = 400 /\ snd r = w)
  /\ (sheetIdMissing e = false ->
      snd r = snd (listSheetTabs e w)
      /\ (forall v, fst (listSheetTabs e w) = inr v ->
            fst r = (200, SheetsList (sheetIdPart e) v))
      /\ (forall err, fst (listSheetTabs e w) = inl err -> fst (fst r) = 500)).
Proof.
  cbv zeta. unfold api_sheets.
  pose proof (listSheetTabs_gridFetches e w) as G.
  destruct (sheetIdMissing e); simpl.
  - split; [reflexivity|]. split; [auto | discriminate].
  - destruct (listSheetTabs e w) as [[err|v] w1]; simpl in *.
    + split; [exact G|]. split; [discriminate|]. intros _.
      split; [reflexivity|]. split; [discriminate | reflexivity].
    + split; [exact G|]. split; [discriminate|]. intros _.
      split; [reflexivity|]. split; [|discriminate].
      intros v' H. now injection H as <-.
Qed.

Lemma api_sheets_spec_witness :
  let e := {| SHEET_ID := Some (js "S1"); CACHE_TTL_MS := 300000;
              sheets := upstream_fixed 5 [js "Hoja 1"; js ""] (fun _ => []);
              argumentLimit := 125000 |} in
  let w := {| cache := ∅; clock := 0; upstreamLog := [] |} in
  fst (api_sheets e w) = (200, SheetsList (js "S1") (Tabs [js "Hoja 1"])).
Proof.
  cbv zeta.
  set (e := {| SHEET_ID := Some (js "S1"); CACHE_TTL_MS := 300000;
               sheets := upstream_fixed 5 [js "Hoja 1"; js ""] (fun _ => []);
               argumentLimit := 125000 |}).
  set (w := {| cache := ∅; clock := 0; upstreamLog := [] |}).
  destruct (api_sheets_spec e w) as (_ & _ & H).
  destruct (H eq_refl) as (_ & Hok & _).
  apply Hok. vm_compute. reflexivity.
Defined.

Lemma readSheetToJson_gridFetches_le (e : env) (tabName : jsstring) (w : world) :
  (gridFetches (upstreamLog (snd (readSheetToJson e tabName w)))
   <= S (gridFetches (upstreamLog w)))%nat.
Proof.
  destruct (readSheetToJson_cases e tabName w)
    as [(v & _ & R) | [(err & pre & _ & _ & _ & Hl & Hp)
                        | (values & t & it & _ & _ & _ & _ & _ & Hl)]].
  - rewrite R. simpl. lia.
  - rewrite Hl. destruct Hp as [-> | ->]; unfold gridFetches; simpl; lia.
  - rewrite Hl. unfold gridFetches; simpl; lia.
Qed.

Lemma readAll_gridFetches (e : env) (tabs : list jsstring) (p : gmap (list N) payload)
    (w : world) :
  (gridFetches (upstreamLog (snd (readAll e tabs p w)))
   <= gridFetches (upstreamLog w) + length tabs)%nat.
Proof.
  revert p w. induction tabs as [|t tabs IH]; intros p w; simpl; [lia|].
  unfold bind. pose proof (readSheetToJson_gridFetches_le e t w) as G.
  destruct (readSheetToJson e t w) as [[err|d] w1]; simpl in *; [lia|].
  specialize (IH (payload_set t d p) w1). lia.
Qed.

Lemma readAll_dom (e : env) (tabs : list jsstring) (p p' : gmap (list N) payload)
    (w : world) :
  fst (readAll e tabs p w) = inr p' ->
  dom p' = dom p ∪ (list_to_set tabs ∖ {[ js "__proto__" ]}).
Proof.
  revert p w. induction tabs as [|t tabs IH]; intros p w; simpl.
  - intros H. injection H as <-. set_solver.
  - unfold bind. destruct (readSheetToJson e t w) as [[err|d] w1]; simpl; [discriminate|].
    intros H. rewrite (IH _ _ H). unfold payload_set.
    case_decide as E.
    + rewrite E. set_solver.
    + rewrite dom_insert_L. set_solver.
Qed.

(** [/api/data-all] makes at most one grid fetch per listed tab, and
    when it answers 200 the object it sends has exactly one field per
    distinct listed tab other than ["__proto__"]; any failure of one
    tab turns the whole answer into 500. *)
Theorem api_data_all_spec (e : env) (w : world) (tabs : list jsstring) :
  let r := api_data_all e w in
  sheetIdMissing e = false ->
  fst (listSheetTabs e w) = inr (Tabs tabs) ->
  (gridFetches (upstreamLog (snd r)) <= gridFetches (upstreamLog w) + length tabs)%nat
  /\ (forall p, fst r = (200, AllSheets p) ->
        dom p = list_to_set tabs ∖ {[ js "__proto__" ]})
  /\ (forall err, fst (readAll e tabs ∅ (snd (listSheetTabs e w))) = inl err ->
        fst (fst r) = 500)
  /\ (fst (fst r) = 200 \/ fst (fst r) = 500).
Proof.
  intros r Hcfg Hlist. subst r. unfold api_data_all. rewrite Hcfg.
  pose proof (listSheetTabs_gridFetches e w) as G.
  destruct (listSheetTabs e w) as [[err|[tabs'|t]] w1]; simpl in Hlist; try discriminate.
  injection Hlist as ->. simpl in G.
  pose proof (readAll_gridFetches e tabs ∅ w1) as GA.
  pose proof (readAll_dom e tabs ∅) as D.
  destruct (readAll e tabs ∅ w1) as [[err|p] w2] eqn:RA; simpl in *.
  - split; [lia|]. split; [intros p' H; inversion H|].
    split; [reflexivity | now right].
  - split; [lia|]. split; [|split; [intros err H; rewrite RA in H; inversion H | now left]].
    intros p' H. injection H as <-.
    rewrite (D p w1); [|now rewrite RA]. rewrite dom_empty_L. set_solver.
Qed.

Lemma api_data_all_spec_witness :
  let e := {| SHEET_ID := Some (js "S1"); CACHE_TTL_MS := 300000;
              sheets := upstream_fixed 5 [js "A"; js "__proto__"] (fun _ => []);
              argumentLimit := 125000 |} in
  let w := {| cache := ∅; clock := 0; upstreamLog := [] |} in
  (gridFetches (upstreamLog (snd (api_data_all e w))) <= 0 + 2)%nat
  /\ fst (fst (api_data_all e w)) = 200%N.
Proof.
  cbv zeta.
  set (e := {| SHEET_ID := Some (js "S1"); CACHE_TTL_MS := 300000;
               sheets := upstream_fixed 5 [js "A"; js "__proto__"] (fun _ => []);
               argumentLimit := 125000 |}).
  set (w := {| cache := ∅; clock := 0; upstreamLog := [] |}).
  destruct (api_data_all_spec e w [js "A"; js "__proto__"]) as (H & _).
  - reflexivity.
  - vm_compute. reflexivity.
  - split; [exact H|]. vm_compute. reflexivity.
Defined.

(** ** CORS configuration *)

Lemma split_comma_cons (u : N) (r : jsstring) :
  u <> 44 ->
  exists p ps, split_comma r = p :: ps /\ split_comma (u :: r) = (u :: p) :: ps.
Proof.
  intros Hu. simpl. rewrite (proj2 (N.eqb_neq u 44) Hu).
  assert (exists p ps, split_comma r = p :: ps) as (p & ps & E).
  { destruct r as [|v r]; simpl; [now exists [], []|].
    destruct (v =? 44); [now eexists _, _|].
    destruct (split_comma r); now eexists _, _. }
  exists p, ps. now rewrite E.
Qed.

Lemma split_comma_no_comma (p : jsstring) : 44 ∉ p -> split_comma p = [p].
Proof.
  induction p as [|u p IH]; intros H; [reflexivity|].
  apply not_elem_of_cons in H as [Hu Hp].
  destruct (split_comma_cons u p (not_eq_sym Hu)) as (q & qs & E & ->).
  rewrite (IH Hp) in E. now injection E as <- <-.
Qed.

Lemma split_comma_app (p s : jsstring) :
  44 ∉ p -> split_comma (p ++ 44 :: s) = p :: split_comma s.
Proof.
  induction p as [|u p IH]; intros H; [reflexivity|].
  apply not_elem_of_cons in H as [Hu Hp].
  destruct (split_comma_cons u (p ++ 44 :: s) (not_eq_sym Hu)) as (q & qs & E & R).
  simpl app. rewrite R. rewrite (IH Hp) in E. now injection E as <- <-.
Qed.

Lemma split_comma_join (l : list jsstring) :
  l <> [] -> Forall (fun o => 44 ∉ o) l -> split_comma (join (js ",") l) = l.
Proof.
  intros Hne H. induction H as [|p l Hp Hl IH]; [contradiction|].
  destruct l as [|q l].
  - simpl. now apply split_comma_no_comma.
  - change (join (js ",") (p :: q :: l)) with (p ++ 44 :: join (js ",") (q :: l)).
    rewrite split_comma_app by assumption. f_equal. now apply IH.
Qed.

(** The pieces of a split hold no comma, and between them they hold
    every other code unit of the string and nothing else. *)
Lemma split_comma_pieces (s : jsstring) (u : N) :
  (exists p, p ∈ split_comma s /\ u ∈ p) <-> u ∈ s /\ u <> 44.
Proof.
  induction s as [|v r IH].
  - simpl. split.
    + intros (p & Hp & Hu). apply list_elem_of_singleton in Hp as ->.
      now apply elem_of_nil in Hu.
    + intros [H _]. now apply elem_of_nil in H.
  - destruct (N.eq_dec v 44) as [->|Hv].
    + simpl. split.
      * intros (p & Hp & Hu). apply elem_of_cons in Hp as [-> | Hp].
        -- now apply elem_of_nil in Hu.
        -- destruct (proj1 IH (ex_intro _ p (conj Hp Hu))) as [H1 H2].
           split; [now apply list_elem_of_further | exact H2].
      * intros [Hin Hne]. apply elem_of_cons in Hin as [-> | Hin]; [contradiction|].
        destruct (proj2 IH (conj Hin Hne)) as (p & Hp & Hu).
        exists p. split; [now apply list_elem_of_further | exact Hu].
    + destruct (split_comma_cons v r Hv) as (q & qs & E & ->).
      rewrite E in IH. split.
      * intros (p & Hp & Hu). apply elem_of_cons in Hp as [-> | Hp].
        -- apply elem_of_cons in Hu as [-> | Hu].
           ++ split; [apply list_elem_of_here | exact Hv].
           ++ destruct (proj1 IH (ex_intro _ q (conj (list_elem_of_here _ _) Hu))) as [H1 H2].
              split; [now apply list_elem_of_further | exact H2].
        -- destruct (proj1 IH (ex_intro _ p (conj (list_elem_of_further _ _ _ Hp) Hu)))
             as [H1 H2].
           split; [now apply list_elem_of_further | exact H2].
      * intros [Hin Hne]. apply elem_of_cons in Hin as [-> | Hin].
        -- exists (v :: q). split; apply list_elem_of_here.
        -- destruct (proj2 IH (conj Hin Hne)) as (p & Hp & Hu).
           apply elem_of_cons in Hp as [-> | Hp].
           ++ exists (v :: q). split; [apply list_elem_of_here|].
              now apply list_elem_of_further.
           ++ exists p. split; [now apply list_elem_of_further | exact Hu].
Qed.

Lemma trimStart_subset (s : jsstring) (u : N) : u ∈ trimStart s -> u ∈ s.
Proof.
  induction s as [|v r IH]; simpl; [auto|].
  destruct (isWhiteSpace v); [|auto].
  intros H. apply list_elem_of_further. now apply IH.
Qed.

Lemma trimEnd_subset (s : jsstring) (u : N) : u ∈ trimEnd s -> u ∈ s.
Proof.
  induction s as [|v r IH]; simpl; [auto|].
  destruct (trimEnd r) as [|x r'].
  - destruct (isWhiteSpace v); intros H.
    + now apply elem_of_nil in H.
    + apply list_elem_of_singleton in H as ->. apply list_elem_of_here.
  - intros H. apply elem_of_cons in H as [-> | H].
    + apply list_elem_of_here.
    + apply list_elem_of_further. now apply IH.
Qed.

Lemma allowedOrigins_elem (env_value : option jsstring) (o : jsstring) :
  o ∈ allowedOrigins env_value <->
  o <> [] /\ exists p, p ∈ split_comma (default [] env_value) /\ o = trim p.
Proof.
  unfold allowedOrigins.
  rewrite list_elem_of_In, List.filter_In, <- list_elem_of_In, map_as_fmap, list_elem_of_fmap.
  split.
  - intros [(p & -> & Hp) Hlen]. split; [|now exists p].
    intros E. rewrite E in Hlen. discriminate.
  - intros [Hne (p & Hp & ->)]. split; [now exists p|].
    destruct (trim p); [contradiction | reflexivity].
Qed.

(** Every configured origin is a non-empty string without comma that
    neither begins nor ends with white space. *)
Theorem allowedOrigins_wellformed (env_value : option jsstring) (o : jsstring) :
  o ∈ allowedOrigins env_value ->
  o <> [] /\ (44 ∉ o) /\ trim o = o
  /\ (forall u, head o = Some u -> isWhiteSpace u = false)
  /\ (forall u, last o = Some u -> isWhiteSpace u = false).
Proof.
  intros H. apply allowedOrigins_elem in H as [Hne (p & Hp & ->)].
  destruct (trim_spec p) as (H1 & H2 & H3 & _).
  split; [exact Hne|]. split; [|auto].
  intros Hin. unfold trim in Hin.
  apply trimEnd_subset, trimStart_subset in Hin.
  destruct (proj1 (split_comma_pieces (default [] env_value) 44)
              (ex_intro _ p (conj Hp Hin))) as [_ Hc].
  now apply Hc.
Qed.

Lemma allowedOrigins_wellformed_witness :
  trim (js "https://a.mx") = js "https://a.mx".
Proof.
  apply (allowedOrigins_wellformed (Some (js " https://a.mx ,,https://b.mx"))).
  vm_compute. apply list_elem_of_here.
Defined.

(** Writing a list of well-formed origins with commas between them and
    reading it back gives the list, in order. *)
Theorem allowedOrigins_join (l : list jsstring) :
  Forall (fun o => o <> [] /\ (44 ∉ o) /\ trim o = o) l ->
  allowedOrigins (Some (join (js ",") l)) = l.
Proof.
  intros H. unfold allowedOrigins. simpl default.
  destruct l as [|p l]; [reflexivity|].
  rewrite split_comma_join; [|discriminate|].
  - induction H as [|o l' (Hne & _ & Ht) _ IH]; [reflexivity|].
    simpl. rewrite Ht. destruct o; [contradiction|]. simpl. now rewrite IH.
  - eapply Forall_impl; [exact H|]. intros o (_ & Hc & _). exact Hc.
Qed.

Lemma allowedOrigins_join_witness :
  allowedOrigins (Some (js "https://a.mx,http://localhost:3000"))
  = [js "https://a.mx"; js "http://localhost:3000"].
Proof.
  apply (allowedOrigins_join [js "https://a.mx"; js "http://localhost:3000"]).
  repeat constructor; try discriminate; vm_compute; intros H;
    apply list_elem_of_In in H; simpl in H; intuition discriminate.
Defined.

(** The policy fails open: the list of origins is empty exactly when
    the variable is unset or holds nothing but commas and white space,
    and then every origin is allowed. A request without [Origin]
    header, or with an empty one, is always allowed. With a non-empty
    list, a request with an [Origin] header is allowed exactly when the
    header is empty or equals one of the configured origins. *)
Theorem originAllowed_policy (env_value : option jsstring) :
  let allowed := allowedOrigins env_value in
  (allowed = [] <->
   Forall (fun u => u = 44 \/ isWhiteSpace u = true) (default [] env_value))
  /\ (allowed = [] -> forall origin, originAllowed allowed origin = true)
  /\ originAllowed allowed None = true
  /\ originAllowed allowed (Some []) = true
  /\ (allowed <> [] -> forall o,
        (originAllowed allowed (Some o) = true <-> o = [] \/ o ∈ allowed)).
Proof.
  cbv zeta. split; [|split; [|split; [|split]]].
  - rewrite Forall_forall. split.
    + intros Hnil u Hu.
      destruct (N.eq_dec u 44) as [->|Hne]; [now left | right].
      destruct (proj2 (split_comma_pieces _ u) (conj Hu Hne)) as (p & Hp & Hin).
      destruct (trim p) as [|x t] eqn:E.
      * apply (proj1 (proj2 (proj2 (proj2 (trim_spec p))))) in E.
        rewrite forallb_forall in E. apply E. now apply list_elem_of_In.
      * assert (trim p ∈ allowedOrigins env_value) as Hmem.
        { apply allowedOrigins_elem. split; [now rewrite E | now exists p]. }
        rewrite Hnil in Hmem. now apply elem_of_nil in Hmem.
    + intros Hall. destruct (allowedOrigins env_value) as [|o l] eqn:E; [reflexivity|].
      assert (o ∈ allowedOrigins env_value) as Hmem by (rewrite E; apply list_elem_of_here).
      apply allowedOrigins_elem in Hmem as [Hne (p & Hp & ->)].
      exfalso. apply Hne.
      apply (proj2 (proj2 (proj2 (trim_spec p)))).
      apply forallb_forall. intros u Hu. apply list_elem_of_In in Hu.
      destruct (proj1 (split_comma_pieces _ u) (ex_intro _ p (conj Hp Hu))) as [Hin Hc].
      destruct (Hall u Hin) as [-> | Hw]; [contradiction | exact Hw].
  - intros -> origin. destruct origin as [[|u o]|]; reflexivity.
  - reflexivity.
  - reflexivity.
  - intros Hne o. destruct o as [|u o].
    + simpl. split; [now left | reflexivity].
    + destruct (allowedOrigins env_value) as [|a l]; [contradiction|].
      simpl. rewrite bool_decide_eq_true. split; [now right|].
      intros [H|H]; [discriminate | exact H].
Qed.

Lemma originAllowed_policy_witness :
  originAllowed (allowedOrigins (Some (js "https://a.mx, https://b.mx")))
                (Some (js "https://b.mx")) = true.
Proof.
  destruct (originAllowed_policy (Some (js "https://a.mx, https://b.mx")))
    as (_ & _ & _ & _ & H).
  apply H.
  - vm_compute. discriminate.
  - right. vm_compute. apply list_elem_of_further, list_elem_of_here.
Defined.

(** ** Header detection and header-less width *)

(** The first row counts as headers exactly when one of its cells holds
    a code unit that is neither white space nor a line terminator; a
    first row of blank cells, or with no cell at all, does not. *)
Theorem hasHeaders_detects (row0 : list jsstring) :
  hasHeaders (List.map trim row0) = true
  <-> Exists (fun c => exists u, u ∈ c /\ isWhiteSpace u = false) row0.
Proof.
  split.
  - intros H. destruct (decide (Exists (fun c => trim c <> []) row0)) as [E|E].
    + eapply Exists_impl; [exact E|]. intros c Hc. simpl in Hc.
      destruct (forallb isWhiteSpace c) eqn:F.
      * exfalso. apply Hc. now apply (proj2 (proj2 (proj2 (trim_spec c)))).
      * apply not_true_iff_false in F.
        rewrite forallb_forall in F.
        destruct (decide (Exists (fun u => isWhiteSpace u = false) c)) as [X|X].
        -- apply Exists_exists in X as (u & Hu & Hw). now exists u.
        -- exfalso. apply F. intros u Hu. apply list_elem_of_In in Hu.
           destruct (isWhiteSpace u) eqn:W; [reflexivity|].
           exfalso. apply X. apply Exists_exists. now exists u.
    + exfalso. apply not_Exists_Forall in E; [|intros c; apply _].
      assert (hasHeaders (List.map trim row0) = false) as Hf.
      { apply hasHeaders_trimmed_empty. eapply Forall_impl; [exact E|].
        intros c Hc. simpl in Hc. destruct (decide (trim c = [])); [assumption|].
        contradiction. }
      congruence.
  - intros H. apply hasHeaders_some_cell.
    eapply Exists_impl; [exact H|]. intros c (u & Hu & Hw) E.
    apply (proj1 (proj2 (proj2 (proj2 (trim_spec c))))) in E.
    rewrite forallb_forall in E. apply list_elem_of_In in Hu.
    specialize (E u Hu). congruence.
Qed.

(** Without headers every record has exactly as many fields as the
    longest row of the grid has cells, the first row included. *)
Theorem normalize_no_headers_width (argLimit : N) (tabName : jsstring)
    (row0 : list jsstring) (body : list (list jsstring)) (t : table) (rec : jsobj) :
  hasHeaders (List.map trim row0) = false ->
  normalize argLimit tabName (row0 :: body) = inr t ->
  rec ∈ rows t ->
  size rec = max_list (List.map (@length (list N)) (row0 :: body)).
Proof.
  intros Hno Ht Hin.
  destruct (N.ltb_spec argLimit (N.of_nat (length (row0 :: body)))) as [Hlt|Hle].
  { rewrite (normalize_blank_throws argLimit tabName row0 body Hno Hlt) in Ht.
    discriminate. }
  rewrite (normalize_blank_branch argLimit tabName row0 body Hno Hle) in Ht.
  injection Ht as <-. simpl rows in Hin.
  rewrite map_as_fmap in Hin. apply list_elem_of_fmap in Hin as (row & -> & _).
  set (n := max_list _).
  unfold rowWithGenHeaders, forEach.
  rewrite (forEach_obj_set_size_distinct (fun h _ => h)).
  - rewrite map_size_empty. unfold genHeaders. now rewrite List.length_map, length_seq.
  - intros j h Hj. apply genHeaders_lookup in Hj as [-> _]. apply colName_not_proto.
  - intros j h _. apply lookup_empty.
  - intros j1 j2 h1 h2 H1 H2 E.
    apply genHeaders_lookup in H1 as [-> _]. apply genHeaders_lookup in H2 as [-> _].
    now apply colName_inj.
Qed.

Lemma normalize_no_headers_width_witness :
  size ({[ js "Col1" := js "d"; js "Col2" := js "e"; js "Col3" := js "" ]}
          : gmap (list N) (list N)) = 3%nat.
Proof.
  apply (normalize_no_headers_width 125000 (js "Sheet1") [js ""; js " "; js ""]
           [[js "a"; js "b"; js "c"]; [js "d"; js "e"]]
           {| tab := js "Sheet1"; headers := [js ""; js ""; js ""];
              rows := [ {[ js "Col1" := js "a"; js "Col2" := js "b"; js "Col3" := js "c" ]};
                        {[ js "Col1" := js "d"; js "Col2" := js "e"; js "Col3" := js "" ]} ] |}).
  - reflexivity.
  - vm_compute. reflexivity.
  - apply list_elem_of_further, list_elem_of_here.
Defined.

(** ** Sheets too long for one call *)


